(** * widgetly: DOM helpers ([src/lib/utils/DOM/index.js])

    A shallow embedding of the helper module and the properties its
    specification states about it.  The document is a store of node
    records addressed by references, so that object identity ([===]),
    parent pointers and in-place updates read as in the JavaScript. *)

From stdpp Require Import gmap strings list pretty.
From Stdlib Require Import ZArith Lia.

Open Scope Z_scope.
Set Warnings "-register-all".

(** ** Outcomes of a call

    A JavaScript call returns a value or throws.  Recursive walks carry a
    step budget; [OutOfFuel] is the budget running out, not a behaviour of
    the program. *)

Inductive JsError :=
  | TypeError               (* property read or method call on null/undefined *)
  | SyntaxError             (* DOMTokenList: empty token *)
  | InvalidCharacterError   (* DOMTokenList: token containing whitespace *)
  | UserError.              (* an exception thrown by application code *)

Inductive Outcome (A : Type) :=
  | Ret (a : A)
  | Throw (e : JsError)
  | OutOfFuel.

Arguments Ret {A} a.
Arguments Throw {A} e.
Arguments OutOfFuel {A}.

(** Sequencing: an exception, or the budget running out, skips the rest. *)
Definition bind {A B} (m : Outcome A) (k : A -> Outcome B) : Outcome B :=
  match m with
  | Ret a => k a
  | Throw e => Throw e
  | OutOfFuel => OutOfFuel
  end.

Notation "'let*' x := m 'in' k" := (bind m (fun x => k))
  (at level 10, x name, m at level 100, k at level 200,
   format "'[v' 'let*'  x  :=  m  'in' '/' k ']'").

(** ** The document store *)

Module Dom.

Definition ref := positive.

(** What the helpers read from, and write to, an element.  Lengths are
    whole pixels, on which the arithmetic of JavaScript numbers is that
    of the integers. *)
Record Element := mkElement {
  scrollHeight : Z;
  clientHeight : Z;
  overflowY : string;          (* getComputedStyle(e).overflowY *)
  rectTop : Z;                 (* e.getBoundingClientRect().top, whole pixels *)
  scrollTop : Z;
  classList : list string      (* the token set of e.classList, in order *)
}.

(** A node: every node has a [parentNode]; only elements carry geometry,
    style and classes (the document itself and text nodes do not). *)
Record Node := mkNode {
  parentNode : option ref;
  element : option Element
}.

(** The page while its root element is in place: [documentElement] and
    [body] are what [document.documentElement] and [document.body]
    answer, held as given.  A page whose root element has been taken out
    (where [document.documentElement] is null) is not among the
    well-formed documents below. *)
Record Document := mkDocument {
  nodes : gmap ref Node;
  document : ref;              (* the [document] object *)
  documentElement : ref;       (* document.documentElement *)
  body : option ref;           (* document.body, null before <body> exists *)
  innerHeight : Z              (* window.innerHeight *)
}.

(** [n.parentNode]; a reference the store does not know is an object
    without that property. *)
Definition parentOf (d : Document) (n : ref) : option ref :=
  nodes d !! n ≫= parentNode.

Definition elementOf (d : Document) (n : ref) : option Element :=
  nodes d !! n ≫= element.

Definition setElement (d : Document) (n : ref) (e : Element) : Document :=
  mkDocument (alter (fun nd => mkNode (parentNode nd) (Some e)) n (nodes d))
             (document d) (documentElement d) (body d) (innerHeight d).

Definition setParent (d : Document) (n : ref) (p : option ref) : Document :=
  mkDocument (alter (fun nd => mkNode p (element nd)) n (nodes d))
             (document d) (documentElement d) (body d) (innerHeight d).

(** [a === b] on nullable references. *)
Definition same (a b : option ref) : bool := bool_decide (a = b).

(** [x > y] on numbers that may be [undefined]: false as soon as one side
    is. *)
Definition gt (x y : option Z) : bool :=
  match x, y with
  | Some a, Some b => bool_decide (b < a)
  | _, _ => false
  end.

(** The parent relation being well founded: a rank that strictly drops
    from a node to its parent.  This is what "finite tree" gives the
    upward walks. *)
Definition ranked (rank : ref -> nat) (d : Document) : Prop :=
  map_Forall (fun n nd =>
    match parentNode nd with
    | Some p => (rank p < rank n)%nat
    | None => True
    end) (nodes d).

(** A document as the browser builds it: [document] is a parentless
    non-element, the root element is its child, and the root and the body
    are elements. *)
Record wf (d : Document) : Prop := mkWf {
  wf_document : nodes d !! document d = Some (mkNode None None);
  wf_root_parent : parentOf d (documentElement d) = Some (document d);
  wf_root_element : is_Some (elementOf d (documentElement d));
  wf_body_element : forall b, body d = Some b -> is_Some (elementOf d b)
}.

End Dom.

(** ** Scroll utilities *)

Module Scroll.
Import Dom.

(** [overflowY === 'auto' || overflowY === 'scroll'] *)
Definition overflowScrolls (ov : string) : bool :=
  bool_decide (ov = "auto") || bool_decide (ov = "scroll").

(** The outer test of [findScrollableParent]:
    [element.scrollHeight > element.clientHeight ||
     element === document.body || element === document.documentElement]. *)
Definition tallOrRoot (d : Document) (n : ref) : bool :=
  gt (scrollHeight <$> elementOf d n) (clientHeight <$> elementOf d n)
  || same (Some n) (body d)
  || bool_decide (n = documentElement d).

(** [getComputedStyle(n).overflowY]; the call throws on what is not an
    element. *)
Definition computedOverflowY (d : Document) (n : ref) : Outcome string :=
  match elementOf d n with
  | Some e => Ret (overflowY e)
  | None => Throw TypeError
  end.

(** Both tests of one step of the walk: does the step return [n]? *)
Definition qualifies (d : Document) (n : ref) : Outcome bool :=
  if tallOrRoot d n
  then let* ov := computedOverflowY d n in Ret (overflowScrolls ov)
  else Ret false.

Fixpoint findScrollableParent (fuel : nat) (d : Document) (element : option ref)
  : Outcome (option ref) :=
  match fuel with
  | O => OutOfFuel
  | S fuel' =>
    match element with
    | None => Ret (Some (documentElement d))
    | Some n =>
      if bool_decide (document d = documentElement d)
      then Ret (Some (documentElement d))
      else
        let* q := qualifies d n in
        if q then Ret (Some n)
        else findScrollableParent fuel' d (parentOf d n)
    end
  end.

(** [x.getBoundingClientRect().top] *)
Definition boundingTop (d : Document) (x : option ref) : Outcome Z :=
  match x with
  | None => Throw TypeError
  | Some n =>
    match elementOf d n with
    | Some e => Ret (rectTop e)
    | None => Throw TypeError
    end
  end.

(** What [scrollByElementTo] does: nothing, or the one call
    [scrollToTop(parent, newScrollTop, duration)] it ends with. *)
Inductive Effect :=
  | NoScroll
  | ScrollToTop (parent : ref) (newScrollTop : Z) (duration : Z).

Definition scrollByElementTo (fuel : nat) (d : Document) (element : option ref)
    (top : Z) (duration : option Z) : Outcome Effect :=
  let* parent := findScrollableParent fuel d element in
  match parent with
  | None => Ret NoScroll
  | Some p =>
    if same parent element then Ret NoScroll
    else
      let* elementTop := boundingTop d element in
      let* parentTop := boundingTop d parent in
      let newScrollTop := elementTop - parentTop + top in
      Ret (ScrollToTop p newScrollTop (default 200 duration))
  end.

(** *** The specification's reading, for comparison *)

(** The qualifying test in the specification's words: content height
    exceeds visible height AND (body OR root element OR overflow is
    "auto" or "scroll"). *)
Definition spec_qualifies (d : Document) (n : ref) : bool :=
  match elementOf d n with
  | Some e =>
    bool_decide (clientHeight e < scrollHeight e)
    && (same (Some n) (body d) || bool_decide (n = documentElement d)
        || overflowScrolls (overflowY e))
  | None => false
  end.

(** The test the code applies, as a proposition. *)
Definition code_qualifies (d : Document) (n : ref) : Prop :=
  exists e, elementOf d n = Some e
    /\ (clientHeight e < scrollHeight e \/ body d = Some n
        \/ n = documentElement d)
    /\ (overflowY e = "auto" \/ overflowY e = "scroll").

(** The target in the specification's words: node top, minus ancestor
    top, plus the ancestor's current scroll offset, with the desired
    offset taken off, so that the node's top ends that far below the
    ancestor's. *)
Definition spec_target (elementTop parentTop scrollOffset top : Z) : Z :=
  elementTop - parentTop + scrollOffset - top.

(** [a] is [n] or one of its ancestors. *)
Inductive onWalk (d : Document) : ref -> ref -> Prop :=
  | onWalk_here n : onWalk d n n
  | onWalk_up n p a : parentOf d n = Some p -> onWalk d p a -> onWalk d n a.

(** [r] is the first node on the walk up from [n] that passes the test
    of the code. *)
Inductive nearest (d : Document) : ref -> ref -> Prop :=
  | nearest_here n : code_qualifies d n -> nearest d n n
  | nearest_up n p r :
      ~ code_qualifies d n -> parentOf d n = Some p ->
      nearest d p r -> nearest d n r.

End Scroll.

(** ** JavaScript values and strings *)

Module Js.

(** The values class-name arguments are made of.  An object is the list
    of its own enumerable properties in enumeration order. *)
Inductive Value :=
  | VUndefined
  | VNull
  | VBool (b : bool)
  | VNum (n : Z)
  | VStr (s : string)
  | VArr (items : list Value)
  | VObj (props : list (string * Value)).

Definition truthy (v : Value) : bool :=
  match v with
  | VUndefined | VNull => false
  | VBool b => b
  | VNum n => negb (bool_decide (n = 0))
  | VStr s => negb (bool_decide (s = ""))
  | VArr _ | VObj _ => true
  end.

Definition code (c : Ascii.ascii) : N := Ascii.N_of_ascii c.

(** White space of [String.prototype.trim] and of [\s], among the code
    units below 256: TAB, LF, VT, FF, CR, SP and NBSP. *)
Definition isSpace (c : Ascii.ascii) : bool :=
  bool_decide (code c ∈ [9; 10; 11; 12; 13; 32; 160]%N).

(** ASCII whitespace of the DOM standard: TAB, LF, FF, CR and SP. *)
Definition isAsciiSpace (c : Ascii.ascii) : bool :=
  bool_decide (code c ∈ [9; 10; 12; 13; 32]%N).

Fixpoint trimStart (s : string) : string :=
  match s with
  | EmptyString => EmptyString
  | String c r => if isSpace c then trimStart r else s
  end.

Fixpoint trimEnd (s : string) : string :=
  match s with
  | EmptyString => EmptyString
  | String c r =>
    match trimEnd r with
    | EmptyString => if isSpace c then EmptyString else String c EmptyString
    | r' => String c r'
    end
  end.

(** [s.trim()] *)
Definition trim (s : string) : string := trimEnd (trimStart s).

(** [s.split(sep+)] for a class of separator characters: the pieces
    between maximal runs of separators, the empty pieces at either end
    included; the empty string splits into one empty piece.  [inRun] says
    that the previous character was a separator. *)
Fixpoint splitRuns (sep : Ascii.ascii -> bool) (inRun : bool) (s : string)
  : list string :=
  match s with
  | EmptyString => [EmptyString]
  | String c r =>
    if sep c then
      if inRun then splitRuns sep true r
      else EmptyString :: splitRuns sep true r
    else
      match splitRuns sep false r with
      | piece :: pieces => String c piece :: pieces
      | [] => [String c EmptyString]
      end
  end.

(** [s.split(/\s+/)] *)
Definition splitSpaces (s : string) : list string := splitRuns isSpace false s.

(** The words of a string: its non-empty pieces between white space. *)
Definition words (s : string) : list string :=
  filter (fun t => t <> "") (splitSpaces s).

(** No white-space character occurs in [s]. *)
Fixpoint spaceless (s : string) : bool :=
  match s with
  | EmptyString => true
  | String c r => negb (isSpace c) && spaceless r
  end.

(** One class name: not empty, no white space. *)
Definition token (t : string) : bool :=
  negb (bool_decide (t = "")) && spaceless t.

End Js.

(** ** Class utilities *)

Module Classes.
Import Dom Js.

(** *** The [classnames] package

    What one argument contributes to the list that is joined with
    spaces: a non-empty string or non-zero number itself, the keys of an
    object whose values are truthy, the non-empty result for an array;
    nothing for any other value.  Numbers are the integers, printed in
    decimal as JavaScript prints them below 10^21. *)
Fixpoint classesOf (arg : Value) : list string :=
  match arg with
  | VStr s => if bool_decide (s = "") then [] else [s]
  | VNum n => if bool_decide (n = 0) then [] else [pretty n]
  | VArr items =>
    let inner := String.concat " " (flat_map classesOf items) in
    if bool_decide (inner = "") then [] else [inner]
  | VObj props => (filter (fun kv => truthy kv.2 = true) props).*1
  | VUndefined | VNull | VBool _ => []
  end.

Definition classnames (args : list Value) : string :=
  String.concat " " (flat_map classesOf args).

(** *** [element.classList] (DOMTokenList) *)

Definition hasAsciiSpace (token : string) : bool :=
  existsb isAsciiSpace (String.list_ascii_of_string token).

(** [add] and [remove] first check every token, in order. *)
Fixpoint validate (tokens : list string) : Outcome unit :=
  match tokens with
  | [] => Ret tt
  | t :: rest =>
    if bool_decide (t = "") then Throw SyntaxError
    else if hasAsciiSpace t then Throw InvalidCharacterError
    else validate rest
  end.

(** Append to an ordered set. *)
Definition addToken (set : list string) (t : string) : list string :=
  if bool_decide (t ∈ set) then set else set ++ [t].

Definition removeToken (set : list string) (t : string) : list string :=
  filter (fun x => x <> t) set.

Definition tokenListAdd (set tokens : list string) : Outcome (list string) :=
  let* _ := validate tokens in Ret (foldl addToken set tokens).

Definition tokenListRemove (set tokens : list string) : Outcome (list string) :=
  let* _ := validate tokens in Ret (foldl removeToken set tokens).

(** The token set of a class attribute: its pieces between ASCII
    whitespace, without the empty ones, each kept once. *)
Definition parseClass (className : string) : list string :=
  foldl addToken []
    (filter (fun t => t <> "") (splitRuns isAsciiSpace false className)).

Definition withClassList (e : Element) (cl : list string) : Element :=
  mkElement (scrollHeight e) (clientHeight e) (overflowY e) (rectTop e)
            (scrollTop e) cl.

(** *** The helpers *)

(** [classnames(...classNames).trim().split(/\s+/)] *)
Definition tokensOf (classNames : list Value) : list string :=
  splitSpaces (trim (classnames classNames)).

Definition setClass (d : Document) (element : option ref)
    (classNames : list Value) : Outcome Document :=
  match element with
  | None => Ret d
  | Some n =>
    match elementOf d n with
    | Some e =>
      Ret (setElement d n (withClassList e (parseClass (classnames classNames))))
    | None => Ret d        (* a plain property on a node without classes *)
    end
  end.

Definition addClass (d : Document) (element : option ref)
    (classNames : list Value) : Outcome Document :=
  match element with
  | None => Ret d
  | Some n =>
    match elementOf d n with
    | Some e =>
      let* cl := tokenListAdd (classList e) (tokensOf classNames) in
      Ret (setElement d n (withClassList e cl))
    | None => Throw TypeError      (* element.classList is undefined *)
    end
  end.

Definition removeClass (d : Document) (element : option ref)
    (classNames : list Value) : Outcome Document :=
  match element with
  | None => Ret d
  | Some n =>
    match elementOf d n with
    | Some e =>
      let* cl := tokenListRemove (classList e) (tokensOf classNames) in
      Ret (setElement d n (withClassList e cl))
    | None => Throw TypeError
    end
  end.

(** *** lodash [forOwn]

    The own enumerable string-keyed properties of a value: those of an
    object, the indexed items of an array, the indexed characters of a
    string; none for the other values. *)
Definition ownEntries (v : Value) : list (string * Value) :=
  match v with
  | VObj props => props
  | VArr items => imap (fun i x => (pretty i, x)) items
  | VStr s =>
    imap (fun i c => (pretty i, VStr (String c EmptyString)))
         (String.list_ascii_of_string s)
  | VUndefined | VNull | VBool _ | VNum _ => []
  end.

Fixpoint forOwn (iteratee : Document -> Value -> string -> Outcome Document)
    (entries : list (string * Value)) (d : Document) : Outcome Document :=
  match entries with
  | [] => Ret d
  | (k, v) :: rest => let* d' := iteratee d v k in forOwn iteratee rest d'
  end.

(** [const [add, ...classNames] = args.reverse()]: the reversal is in
    place, so [args[0]] read afterwards is [add] itself. *)
Definition toggleClass (d : Document) (element : option ref)
    (args : list Value) : Outcome Document :=
  match rev args with
  | VBool add :: classNames =>
    if add then addClass d element classNames
    else removeClass d element classNames
  | reversed =>
    forOwn (fun d v k =>
              if truthy v then addClass d element [VStr k]
              else removeClass d element [VStr k])
           (ownEntries (default VUndefined (head reversed))) d
  end.

(** *** Removal and viewport *)

(** [if (element.parentNode) element.parentNode.removeChild(element)].
    The node's parent pointer is cleared; [document.body] and
    [document.documentElement] are held as they were, so what is said of
    the document afterwards is for removals that leave the body and the
    root element where they are. *)
Definition removeFromDOM (d : Document) (element : option ref)
  : Outcome Document :=
  match element with
  | None => Throw TypeError        (* null.parentNode *)
  | Some n =>
    match parentOf d n with
    | Some _ => Ret (setParent d n None)
    | None => Ret d
    end
  end.

(** [element.getBoundingClientRect().top - offset < window.innerHeight] *)
Definition inViewport (d : Document) (element : option ref) (offset : Z)
  : Outcome bool :=
  let* top := Scroll.boundingTop d element in
  Ret (bool_decide (top - offset < innerHeight d)).

(** [d'] differs from [d] at most in the classes of [target]: the same
    document objects, the same parents, the same class lists elsewhere. *)
Definition touchesOnly (target : option ref) (d d' : Document) : Prop :=
  document d' = document d
  /\ documentElement d' = documentElement d
  /\ body d' = body d
  /\ (forall m, parentOf d' m = parentOf d m)
  /\ (forall m, Some m <> target ->
        classList <$> elementOf d' m = classList <$> elementOf d m).

(** What a mapping asks of a class list, entry after entry. *)
Definition toggled (cl : list string) (props : list (string * Value))
  : list string :=
  foldl (fun cl kv => if truthy kv.2 then addToken cl kv.1
                      else removeToken cl kv.1) cl props.

End Classes.

(** ** Removal watcher *)

Module Watcher.
Import Dom Js.

(** Code of the page: what it does between mutation events, and what a
    callback handed to [onRemoveFromDOM] does when it is invoked.  It may
    change the tree, register further watchers, throw, and, the emitter
    being exported, emit ['mutation'] itself. *)
Inductive Prog :=
  | Done
  | Raise
  | Mutate (f : Document -> Document) (next : Prog)
  | Emit (next : Prog)
  | Watch (element : option ref) (callback : Prog) (next : Prog).

(** The closure [onMutation] of one call of [onRemoveFromDOM]: its
    identity and the two variables it captures. *)
Record Listener := mkListener {
  lid : nat;
  watched : option ref;
  callback : Prog
}.

Record Call := mkCall {
  callee : nat;                (* the registration whose callback ran *)
  arguments : list Value
}.

Record World := mkWorld {
  doc : Document;
  listeners : list Listener;   (* of mutationEvents for 'mutation', in order *)
  calls : list Call;           (* callback invocations so far, oldest first *)
  made : nat                   (* closures created so far *)
}.

(** How a run ended.  A throw leaves the state as it is at that point. *)
Inductive Completion :=
  | Normal
  | Abrupt (e : JsError)
  | Exhausted.

(** [b.contains(x)]: is [x] the node [b] or below it?  Native to the
    host; the walk up is bounded by the number of nodes. *)
Fixpoint selfOrAbove (fuel : nat) (d : Document) (b : ref) (x : option ref)
  : bool :=
  match x with
  | None => false
  | Some n =>
    bool_decide (n = b)
    || match fuel with
       | O => false
       | S fuel' => selfOrAbove fuel' d b (parentOf d n)
       end
  end.

Definition contains (d : Document) (b : ref) (x : option ref) : bool :=
  selfOrAbove (size (nodes d)) d b x.

(** [document.body.contains(element)] *)
Definition isElementInDOM (d : Document) (element : option ref) : Outcome bool :=
  match body d with
  | Some b => Ret (contains d b element)
  | None => Throw TypeError
  end.

(** [mutationEvents.on('mutation', l)] *)
Definition on (l : Listener) (w : World) : World :=
  mkWorld (doc w) (listeners w ++ [l]) (calls w) (made w).

(** [removeListener] drops the last registered occurrence. *)
Fixpoint dropLast (id : nat) (ls : list Listener) : list Listener :=
  match ls with
  | [] => []
  | l :: rest =>
    if bool_decide (lid l = id) && negb (bool_decide (id ∈ lid <$> rest))
    then rest
    else l :: dropLast id rest
  end.

Definition removeListener (id : nat) (w : World) : World :=
  mkWorld (doc w) (dropLast id (listeners w)) (calls w) (made w).

Definition invoked (id : nat) (args : list Value) (w : World) : World :=
  mkWorld (doc w) (listeners w) (calls w ++ [mkCall id args]) (made w).

Definition onRemoveFromDOM (w : World) (element : option ref) (cb : Prog)
  : World * Completion :=
  let onMutation := mkListener (made w) element cb in
  let w := mkWorld (doc w) (listeners w) (calls w) (S (made w)) in
  match isElementInDOM (doc w) element with
  | Ret true => (on onMutation w, Normal)
  | Ret false => (w, Normal)
  | Throw e => (w, Abrupt e)
  | OutOfFuel => (w, Exhausted)
  end.

(** The body of [onMutation]; [call] runs the code of a callback. *)
Definition onMutation (call : Prog -> World -> World * Completion)
    (l : Listener) (w : World) : World * Completion :=
  match isElementInDOM (doc w) (watched l) with
  | Ret false => call (callback l) (invoked (lid l) [] (removeListener (lid l) w))
  | Ret true => (w, Normal)
  | Throw e => (w, Abrupt e)
  | OutOfFuel => (w, Exhausted)
  end.

(** [emit] calls the listeners of a copy of the list taken when it
    starts; an exception ends it. *)
Fixpoint dispatch (handler : Listener -> World -> World * Completion)
    (copy : list Listener) (w : World) : World * Completion :=
  match copy with
  | [] => (w, Normal)
  | l :: rest =>
    match handler l w with
    | (w', Normal) => dispatch handler rest w'
    | stopped => stopped
    end
  end.

Fixpoint exec (emit : World -> World * Completion) (p : Prog) (w : World)
  : World * Completion :=
  match p with
  | Done => (w, Normal)
  | Raise => (w, Abrupt UserError)
  | Mutate f next =>
    exec emit next (mkWorld (f (doc w)) (listeners w) (calls w) (made w))
  | Emit next =>
    match emit w with
    | (w', Normal) => exec emit next w'
    | stopped => stopped
    end
  | Watch element cb next =>
    match onRemoveFromDOM w element cb with
    | (w', Normal) => exec emit next w'
    | stopped => stopped
    end
  end.

(** [mutationEvents.emit('mutation', e)]; [fuel] bounds how deep emits
    nest. *)
Fixpoint emit (fuel : nat) (w : World) : World * Completion :=
  match fuel with
  | O => (w, Exhausted)
  | S fuel' => dispatch (onMutation (exec (emit fuel'))) (listeners w) w
  end.

Definition run (fuel : nat) (p : Prog) (w : World) : World * Completion :=
  exec (emit fuel) p w.

Definition start (d : Document) : World := mkWorld d [] [] 0.

(** Page code calling [removeFromDOM(n)]. *)
Definition detach (n : ref) (d : Document) : Document :=
  match Classes.removeFromDOM d (Some n) with
  | Ret d' => d'
  | _ => d
  end.

(** The turns of the event loop, one after the other: each runs to its
    end or to an uncaught exception, and the next finds the state it
    left. *)
Definition session (fuel : nat) (turns : list Prog) (w : World) : World :=
  foldl (fun w p => (run fuel p w).1) w turns.

(** How many times the callback of registration [r] has run. *)
Definition timesCalled (r : nat) (w : World) : nat :=
  length (filter (fun c => callee c = r) (calls w)).

(** Code that never emits, whatever callbacks it registers. *)
Fixpoint quiet (p : Prog) : bool :=
  match p with
  | Done | Raise => true
  | Mutate _ next => quiet next
  | Emit _ => false
  | Watch _ cb next => quiet cb && quiet next
  end.

(** Code in which mutation events are delivered one at a time: it may
    emit, its callbacks may not. *)
Fixpoint sequential (p : Prog) : bool :=
  match p with
  | Done | Raise => true
  | Mutate _ next => sequential next
  | Emit next => sequential next
  | Watch _ cb next => quiet cb && sequential next
  end.

(** Identities handed out so far are below the counter. *)
Definition fresh (w : World) : Prop :=
  Forall (fun l => (lid l < made w)%nat) (listeners w)
  /\ Forall (fun c => (callee c < made w)%nat) (calls w).

(** The state of a page whose mutation events come one at a time: every
    closure is registered at most once, no callback emits, a callback
    that has run did so once, without arguments, and its listener is
    gone. *)
Record orderly (w : World) : Prop := mkOrderly {
  o_fresh : fresh w;
  o_nodup : NoDup (lid <$> listeners w);
  o_quiet : Forall (fun l => quiet (callback l) = true) (listeners w);
  o_once : forall r, (timesCalled r w <= 1)%nat;
  o_gone : forall r, r ∈ (lid <$> listeners w) -> timesCalled r w = 0%nat;
  o_noargs : Forall (fun c => arguments c = []) (calls w)
}.

(** Registration [r] has been handed out, is not listening and has not
    run. *)
Definition silent (r : nat) (w : World) : Prop :=
  (r < made w)%nat
  /\ (r ∉ (lid <$> listeners w)) /\ (r ∉ (callee <$> calls w)).

(** [w'] comes after [w]: the counter has not gone back, and the
    identities in [w'] are below it. *)
Definition later (w w' : World) : Prop :=
  fresh w' /\ (made w <= made w')%nat.

(** A world reached from [w] without any callback running. *)
Definition grown (w w' : World) : Prop :=
  orderly w' /\ calls w' = calls w
  /\ forall l, l ∈ listeners w -> l ∈ listeners w'.

End Watcher.

(** ** Sample documents *)

Module Samples.
Import Dom.

Definition theDocument : ref := 1%positive.
Definition html : ref := 2%positive.
Definition theBody : ref := 3%positive.
Definition div : ref := 4%positive.
Definition para : ref := 5%positive.
Definition loose : ref := 6%positive.

Definition plain (top : Z) : Element :=
  mkElement 600 600 "visible" top 0 [].

Definition scroller : Element :=
  mkElement 1000 200 "auto" 0 50 ["c"; "pane"].

(** [document] > [html] > [body]: the body's content is taller than its
    box and its overflow is the default ["visible"]. *)
Definition tallBody : Document :=
  mkDocument
    (<[theDocument := mkNode None None]>
     (<[html := mkNode (Some theDocument) (Some (plain 0))]>
     (<[theBody := mkNode (Some html)
          (Some (mkElement 900 600 "visible" 0 0 []))]> ∅)))
    theDocument html (Some theBody) 600.

(** The same tree with a body that fits its box and has [overflow-y: auto]. *)
Definition autoBody : Document :=
  mkDocument
    (<[theDocument := mkNode None None]>
     (<[html := mkNode (Some theDocument) (Some (plain 0))]>
     (<[theBody := mkNode (Some html)
          (Some (mkElement 600 600 "auto" 0 0 ["page"]))]> ∅)))
    theDocument html (Some theBody) 600.

(** [body] > [div] (a scroll container already scrolled by 50) > [para]
    (100 pixels below the container's top); [loose] is a detached
    element. *)
Definition pane : Document :=
  mkDocument
    (<[theDocument := mkNode None None]>
     (<[html := mkNode (Some theDocument) (Some (plain 0))]>
     (<[theBody := mkNode (Some html) (Some (plain 0))]>
     (<[div := mkNode (Some theBody) (Some scroller)]>
     (<[para := mkNode (Some div) (Some (plain 100))]>
     (<[loose := mkNode None (Some (plain 0))]> ∅))))))
    theDocument html (Some theBody) 600.

Definition depth (n : ref) : nat := Pos.to_nat n.

(** A page whose [<body>] has not been parsed yet. *)
Definition headOnly : Document :=
  mkDocument
    (<[theDocument := mkNode None None]>
     (<[html := mkNode (Some theDocument) (Some (plain 0))]>
     (<[loose := mkNode None (Some (plain 0))]> ∅)))
    theDocument html None 600.

(** One watcher whose callback throws; the container is taken out and
    two mutations are announced, each in a turn of its own. *)
Definition throwing : list Watcher.Prog :=
  [ Watcher.Watch (Some para) Watcher.Raise
      (Watcher.Mutate (fun d => setParent d div None) Watcher.Done);
    Watcher.Emit Watcher.Done;
    Watcher.Emit Watcher.Done ].

(** The arguments ['a', {b: true, c: false}] and [{x: true, y: false}]. *)
Definition a_b_not_c : list Js.Value :=
  [Js.VStr "a"; Js.VObj [("b", Js.VBool true); ("c", Js.VBool false)]].

Definition x_not_y : Js.Value :=
  Js.VObj [("x", Js.VBool true); ("y", Js.VBool false)].

End Samples.

(* ================================================================== *)
(** * Properties *)

Section ScrollFacts.
Import Dom Scroll.

Lemma wf_distinct d : wf d -> document d <> documentElement d.
Proof.
  intros [Hdoc _ [e He] _] Heq. rewrite <- Heq in He.
  unfold elementOf in He. rewrite Hdoc in He. discriminate.
Qed.

Lemma wf_tallOrRoot_element d n :
  wf d -> tallOrRoot d n = true -> is_Some (elementOf d n).
Proof.
  intros Hwf. unfold tallOrRoot, gt, same.
  destruct (elementOf d n) as [e|] eqn:He; [eauto|]. simpl.
  intros H. apply orb_prop in H as [H|H].
  - apply bool_decide_eq_true_1 in H. symmetry in H.
    destruct (wf_body_element d Hwf n H) as [e He']. congruence.
  - apply bool_decide_eq_true_1 in H. subst n.
    destruct (wf_root_element d Hwf) as [e He']. congruence.
Qed.

Lemma qualifies_total d n : wf d -> exists b, qualifies d n = Ret b.
Proof.
  intros Hwf. unfold qualifies, computedOverflowY.
  destruct (tallOrRoot d n) eqn:Ht; [|eauto].
  destruct (wf_tallOrRoot_element d n Hwf Ht) as [e ->]. simpl. eauto.
Qed.

Lemma overflowScrolls_true ov :
  overflowScrolls ov = true <-> ov = "auto" \/ ov = "scroll".
Proof.
  unfold overflowScrolls. rewrite orb_true_iff, !bool_decide_eq_true. tauto.
Qed.

Lemma qualifies_true d n : qualifies d n = Ret true <-> code_qualifies d n.
Proof.
  unfold qualifies, code_qualifies, computedOverflowY, tallOrRoot, gt, same.
  destruct (elementOf d n) as [e|] eqn:He; simpl.
  - split.
    + destruct (_ || _ || _) eqn:Ht; simpl; [|discriminate].
      intros [= Hov]. exists e. split; [done|]. split.
      * rewrite !orb_true_iff, !bool_decide_eq_true in Ht.
        destruct Ht as [[H|H]|H]; [auto | right; left; congruence | auto].
      * by apply overflowScrolls_true.
    + intros (e' & [= <-] & Ht & Hov).
      assert (bool_decide (clientHeight e < scrollHeight e)
              || bool_decide (Some n = body d)
              || bool_decide (n = documentElement d) = true) as ->.
      { rewrite !orb_true_iff, !bool_decide_eq_true.
        destruct Ht as [H|[H|H]]; [auto | left; right; congruence | auto]. }
      simpl. f_equal. by apply overflowScrolls_true.
  - split.
    + destruct (_ || _); simpl; discriminate.
    + intros (e' & [=] & _).
Qed.

Lemma findScrollableParent_unfold fuel d n :
  document d <> documentElement d ->
  findScrollableParent (S fuel) d (Some n) =
  let* q := qualifies d n in
  if q then Ret (Some n) else findScrollableParent fuel d (parentOf d n).
Proof. intros Hne. simpl. by rewrite bool_decide_eq_false_2. Qed.

(** More budget never changes an answer already reached. *)
Lemma findScrollableParent_mono fuel fuel' d x r :
  findScrollableParent fuel d x = Ret r -> (fuel <= fuel')%nat ->
  findScrollableParent fuel' d x = Ret r.
Proof.
  revert fuel' x. induction fuel as [|fuel IH]; intros fuel' x; [discriminate|].
  destruct fuel' as [|fuel']; [lia|]. intros H Hle. simpl in *.
  destruct x as [n|]; [|done]. case_bool_decide; [done|].
  destruct (qualifies d n) as [[|]| |]; simpl in *; try done.
  apply IH; [done|lia].
Qed.

(** The walk from a node of rank [k] ends within [k + 2] steps, on a
    non-null node. *)
Lemma findScrollableParent_total rank d :
  wf d -> ranked rank d ->
  forall fuel n, (rank n + 2 <= fuel)%nat ->
    exists r, findScrollableParent fuel d (Some n) = Ret (Some r).
Proof.
  intros Hwf Hrk. pose proof (wf_distinct d Hwf) as Hne.
  induction fuel as [|fuel IH]; intros n Hfuel; [lia|].
  rewrite findScrollableParent_unfold by done.
  destruct (qualifies_total d n Hwf) as [[|] ->]; simpl; [eauto|].
  destruct (parentOf d n) as [p|] eqn:Hp.
  - apply IH. unfold parentOf in Hp.
    destruct (nodes d !! n) as [nd|] eqn:Hn; [|discriminate]. simpl in Hp.
    specialize (Hrk n nd Hn). simpl in Hrk. rewrite Hp in Hrk. lia.
  - destruct fuel; [lia|]. simpl. eauto.
Qed.

(** A walk none of whose nodes passes the test ends on the root element. *)
Lemma findScrollableParent_none rank d :
  wf d -> ranked rank d ->
  forall fuel n, (rank n + 2 <= fuel)%nat ->
    (forall a, onWalk d n a -> ~ code_qualifies d a) ->
    findScrollableParent fuel d (Some n) = Ret (Some (documentElement d)).
Proof.
  intros Hwf Hrk. pose proof (wf_distinct d Hwf) as Hne.
  induction fuel as [|fuel IH]; intros n Hfuel Hno; [lia|].
  rewrite findScrollableParent_unfold by done.
  destruct (qualifies_total d n Hwf) as [[|] Hq]; rewrite Hq; simpl.
  - exfalso. apply (Hno n); [constructor | by apply qualifies_true].
  - destruct (parentOf d n) as [p|] eqn:Hp.
    + apply IH.
      * unfold parentOf in Hp.
        destruct (nodes d !! n) as [nd|] eqn:Hn; [|discriminate]. simpl in Hp.
        specialize (Hrk n nd Hn). simpl in Hrk. rewrite Hp in Hrk. lia.
      * intros a Ha. apply Hno. by eapply onWalk_up.
    + destruct fuel; [lia|]. done.
Qed.

Lemma document_not_qualifies d : wf d -> qualifies d (document d) = Ret false.
Proof.
  intros Hwf. unfold qualifies.
  destruct (tallOrRoot d (document d)) eqn:Ht; [|done].
  destruct (wf_tallOrRoot_element d _ Hwf Ht) as [e He].
  unfold elementOf in He. by rewrite (wf_document d Hwf) in He.
Qed.

Lemma findScrollableParent_of_root d fuel :
  wf d -> (3 <= fuel)%nat ->
  findScrollableParent fuel d (Some (documentElement d))
  = Ret (Some (documentElement d)).
Proof.
  intros Hwf Hfuel. pose proof (wf_distinct d Hwf) as Hne.
  destruct fuel as [|[|[|fuel]]]; try lia.
  rewrite findScrollableParent_unfold by done.
  destruct (qualifies_total d (documentElement d) Hwf) as [[|] ->];
    cbn [bind]; [done|].
  rewrite (wf_root_parent d Hwf).
  rewrite findScrollableParent_unfold by done.
  rewrite (document_not_qualifies d Hwf). cbn [bind].
  unfold parentOf. by rewrite (wf_document d Hwf).
Qed.

Lemma wf_tallBody : wf Samples.tallBody.
Proof.
  split; [reflexivity | reflexivity | by eexists |].
  intros b [= <-]. by eexists.
Qed.

Lemma ranked_tallBody : ranked Samples.depth Samples.tallBody.
Proof.
  unfold ranked. apply map_Forall_to_list. vm_compute. repeat constructor.
Qed.

Lemma tallBody_walk a :
  onWalk Samples.tallBody Samples.theBody a ->
  ~ code_qualifies Samples.tallBody a.
Proof.
  intros Hwalk Hq. apply qualifies_true in Hq.
  inversion Hwalk as [|? p ? Hp Hwalk1]; subst; [discriminate|].
  injection Hp as <-.
  inversion Hwalk1 as [|? p ? Hp Hwalk2]; subst; [discriminate|].
  injection Hp as <-.
  inversion Hwalk2 as [|? p ? Hp _]; subst; discriminate.
Qed.

Lemma wf_pane : wf Samples.pane.
Proof.
  split; [reflexivity | reflexivity | by eexists |].
  intros b [= <-]. by eexists.
Qed.

Lemma ranked_pane : ranked Samples.depth Samples.pane.
Proof.
  unfold ranked. apply map_Forall_to_list. vm_compute. repeat constructor.
Qed.

(** C1 (as amended). On a well-formed document, a step of the upward walk
    at node [n] returns [n] exactly when (content height exceeds visible
    height, or [n] is the body, or [n] is the root element) and the
    computed overflow-y is ["auto"] or ["scroll"]; otherwise the walk goes
    on from the parent of [n]. *)
Theorem findScrollableParent_step_test d n fuel :
  wf d ->
  (qualifies d n = Ret true <-> code_qualifies d n)
  /\ (code_qualifies d n ->
      findScrollableParent (S fuel) d (Some n) = Ret (Some n))
  /\ (~ code_qualifies d n ->
      findScrollableParent (S fuel) d (Some n)
      = findScrollableParent fuel d (parentOf d n)).
Proof.
  intros Hwf. pose proof (wf_distinct d Hwf) as Hne.
  split; [apply qualifies_true|]. split; intros H.
  - rewrite findScrollableParent_unfold by done.
    apply qualifies_true in H. by rewrite H.
  - rewrite findScrollableParent_unfold by done.
    destruct (qualifies_total d n Hwf) as [[|] Hq]; rewrite Hq; simpl; [|done].
    by apply qualifies_true in Hq.
Qed.

Lemma findScrollableParent_step_test_witness :
  findScrollableParent 1 Samples.pane (Some Samples.div)
  = Ret (Some Samples.div).
Proof.
  apply (findScrollableParent_step_test Samples.pane Samples.div 0 wf_pane).
  eexists. split; [reflexivity|]. split; [left; reflexivity | left; reflexivity].
Defined.

(** C1 (as stated) fails.  A body taller than its box with overflow-y
    ["visible"] qualifies in the specification's reading, yet the walk
    passes it by and ends on the root element; a body that fits its box
    with overflow-y ["auto"] does not qualify in that reading, yet it is
    returned. *)
Lemma spec_qualifies_not_the_test :
  spec_qualifies Samples.tallBody Samples.theBody = true
  /\ findScrollableParent 4 Samples.tallBody (Some Samples.theBody)
     = Ret (Some Samples.html)
  /\ spec_qualifies Samples.autoBody Samples.theBody = false
  /\ findScrollableParent 4 Samples.autoBody (Some Samples.theBody)
     = Ret (Some Samples.theBody).
Proof. repeat split; vm_compute; reflexivity. Qed.

(** C5. On a well-formed finite document, resolution applied to the root
    element returns the root element, and applied to a node none of whose
    ancestors (itself included) passes the test, so that the walk reaches
    a node without parent, it returns the root element too. *)
Theorem findScrollableParent_root rank d :
  wf d -> ranked rank d ->
  (forall fuel, (3 <= fuel)%nat ->
     findScrollableParent fuel d (Some (documentElement d))
     = Ret (Some (documentElement d)))
  /\ (forall n fuel, (rank n + 2 <= fuel)%nat ->
        (forall a, onWalk d n a -> ~ code_qualifies d a) ->
        findScrollableParent fuel d (Some n) = Ret (Some (documentElement d))).
Proof.
  intros Hwf Hrk. split.
  - intros fuel. by apply findScrollableParent_of_root.
  - intros n fuel. by apply (findScrollableParent_none rank).
Qed.

Lemma findScrollableParent_root_witness :
  findScrollableParent 3 Samples.pane (Some Samples.html)
  = Ret (Some Samples.html)
  /\ findScrollableParent 5 Samples.tallBody (Some Samples.theBody)
     = Ret (Some Samples.html).
Proof.
  split.
  - apply (proj1 (findScrollableParent_root Samples.depth Samples.pane
                    wf_pane ranked_pane)).
    lia.
  - apply (proj2 (findScrollableParent_root Samples.depth Samples.tallBody
                    wf_tallBody ranked_tallBody) Samples.theBody 5%nat).
    + vm_compute. lia.
    + apply tallBody_walk.
Defined.

(** C9. On a well-formed finite document the walk from any node [n] ends
    within (rank of [n]) + 2 steps and returns a non-null node; hence
    [scrollByElementTo] returns early only through [parent === element],
    never through [!parent]. *)
Theorem findScrollableParent_terminates rank d n fuel top duration :
  wf d -> ranked rank d -> (rank n + 2 <= fuel)%nat ->
  (exists r, findScrollableParent fuel d (Some n) = Ret (Some r))
  /\ (scrollByElementTo fuel d (Some n) top duration = Ret NoScroll ->
      findScrollableParent fuel d (Some n) = Ret (Some n)).
Proof.
  intros Hwf Hrk Hfuel.
  destruct (findScrollableParent_total rank d Hwf Hrk fuel n Hfuel) as [r Hr].
  split; [eauto|]. unfold scrollByElementTo. rewrite Hr. cbn [bind].
  unfold same. case_bool_decide as Hsame; [congruence|].
  destruct (boundingTop d (Some n)); cbn [bind]; try discriminate.
  destruct (boundingTop d (Some r)); cbn [bind]; discriminate.
Qed.

Lemma findScrollableParent_terminates_witness :
  exists r, findScrollableParent 7 Samples.pane (Some Samples.para) = Ret (Some r).
Proof.
  assert (Hfuel : (Samples.depth Samples.para + 2 <= 7)%nat)
    by (vm_compute; lia).
  exact (proj1 (findScrollableParent_terminates Samples.depth Samples.pane
                  Samples.para 7 0 None wf_pane ranked_pane Hfuel)).
Defined.

(** C2: the code falls short of it.  The container is scrolled by 50,
    the node's top is 100 below the container's, and the desired offset
    is 10.  The resolved ancestor is the container, another node than the
    target; the claim's target, which counts the current scroll offset
    in, is 140; the code asks [scrollToTop] for 110, its sum having no
    term for the container's scroll offset. *)
Lemma scrollByElementTo_misses_scroll_offset :
  elementOf Samples.pane Samples.para = Some (Samples.plain 100)
  /\ elementOf Samples.pane Samples.div = Some Samples.scroller
  /\ findScrollableParent 7 Samples.pane (Some Samples.para)
     = Ret (Some Samples.div)
  /\ Samples.div <> Samples.para
  /\ spec_target (rectTop (Samples.plain 100)) (rectTop Samples.scroller)
       (scrollTop Samples.scroller) 10 = 140
  /\ scrollByElementTo 7 Samples.pane (Some Samples.para) 10 None
     = Ret (ScrollToTop Samples.div 110 200).
Proof. repeat split; try (vm_compute; reflexivity). discriminate. Qed.

End ScrollFacts.

Section ClassFacts.
Import Dom Js Classes.

Lemma bind_Ret {A} (m : Outcome A) : (let* x := m in Ret x) = m.
Proof. by destruct m. Qed.

Lemma elementOf_setElement d n e e0 :
  elementOf d n = Some e0 -> elementOf (setElement d n e) n = Some e.
Proof.
  unfold elementOf, setElement. simpl. rewrite lookup_alter_eq.
  by destruct (nodes d !! n) as [[]|].
Qed.

Lemma setElement_twice d n e : setElement (setElement d n e) n e = setElement d n e.
Proof.
  unfold setElement. simpl. f_equal.
  rewrite alter_alter_eq. by apply alter_ext.
Qed.

Lemma addToken_present set t : t ∈ set -> addToken set t = set.
Proof. intros H. unfold addToken. by rewrite bool_decide_eq_true_2. Qed.

Lemma addToken_elem set t x : x ∈ addToken set t <-> x ∈ set \/ x = t.
Proof.
  unfold addToken. case_bool_decide as H.
  - split; [auto|]. intros [?| ->]; done.
  - rewrite elem_of_app, list_elem_of_singleton. tauto.
Qed.

Lemma falsy_classesOf v : truthy v = false -> classesOf v = [].
Proof.
  destruct v as [| |[]|n|s| |]; simpl; try done.
  - intros H. apply negb_false_iff in H. by rewrite H.
  - intros H. apply negb_false_iff in H. by rewrite H.
Qed.

Lemma falsy_classnames args :
  Forall (fun v => truthy v = false) args -> classnames args = "".
Proof.
  intros H. unfold classnames.
  assert (flat_map classesOf args = []) as ->; [|done].
  induction H as [|v args Hv _ IH]; [done|].
  simpl. by rewrite (falsy_classesOf v Hv), IH.
Qed.

Lemma forOwn_absent (f : Document -> Value -> string -> Outcome Document)
    entries d :
  (forall d v k, f d v k = Ret d) -> forOwn f entries d = Ret d.
Proof.
  intros Hf. induction entries as [|[k v] rest IH]; [done|].
  simpl. by rewrite Hf.
Qed.

Lemma toggleClass_absent d args : toggleClass d None args = Ret d.
Proof.
  unfold toggleClass.
  assert (forall es, forOwn (fun d v k =>
            if truthy v then addClass d None [VStr k]
            else removeClass d None [VStr k]) es d = Ret d) as Hown.
  { intros es. apply forOwn_absent. intros ? v ?. by destruct (truthy v). }
  destruct (rev args) as [|[| |[]| | | |] rest]; by rewrite ?Hown.
Qed.

(** C6 (as amended). For every element and every initial class list,
    [addClass(node, 'a', {b: true, c: false})] succeeds and leaves a class
    list that contains ['a'] and ['b'], and contains ['c'] exactly when
    the initial one did (nothing is removed); applying the same call again
    changes nothing. *)
Theorem addClass_a_b_keeps_c d n e :
  elementOf d n = Some e ->
  exists d' e',
    addClass d (Some n) Samples.a_b_not_c = Ret d'
    /\ elementOf d' n = Some e'
    /\ "a" ∈ classList e' /\ "b" ∈ classList e'
    /\ ("c" ∈ classList e' <-> "c" ∈ classList e)
    /\ addClass d' (Some n) Samples.a_b_not_c = Ret d'.
Proof.
  intros He.
  set (cl := addToken (addToken (classList e) "a") "b").
  assert (Ha : "a" ∈ cl) by (apply addToken_elem; left; apply addToken_elem; auto).
  assert (Hb : "b" ∈ cl) by (apply addToken_elem; auto).
  exists (setElement d n (withClassList e cl)), (withClassList e cl).
  assert (Htok : tokensOf Samples.a_b_not_c = ["a"; "b"]) by (vm_compute; reflexivity).
  split; [|split; [|split; [|split; [|split]]]].
  - unfold addClass. rewrite He, Htok. reflexivity.
  - by eapply elementOf_setElement.
  - done.
  - done.
  - simpl. unfold cl. rewrite !addToken_elem. split; [|auto].
    intros [[H|H]|H]; [done| |]; discriminate.
  - unfold addClass. erewrite elementOf_setElement by done. rewrite Htok.
    unfold tokenListAdd. cbn [validate bind bool_decide hasAsciiSpace]. simpl.
    rewrite (addToken_present cl "a" Ha), (addToken_present cl "b" Hb).
    change (withClassList (withClassList e cl) cl) with (withClassList e cl).
    by rewrite setElement_twice.
Qed.

Lemma addClass_a_b_keeps_c_witness :
  exists d' e',
    addClass Samples.pane (Some Samples.para) Samples.a_b_not_c = Ret d'
    /\ elementOf d' Samples.para = Some e'
    /\ "a" ∈ classList e' /\ "b" ∈ classList e'
    /\ ("c" ∈ classList e' <-> "c" ∈ classList (Samples.plain 100))
    /\ addClass d' (Some Samples.para) Samples.a_b_not_c = Ret d'.
Proof.
  apply (addClass_a_b_keeps_c Samples.pane Samples.para (Samples.plain 100)).
  reflexivity.
Defined.

(** C6 (as stated) fails.  On an element whose class list is
    ["c"; "pane"] the call leaves ["c"; "pane"; "a"; "b"]: ['c'] is still
    there. *)
Lemma addClass_does_not_remove_c :
  match addClass Samples.pane (Some Samples.div) Samples.a_b_not_c with
  | Ret d' => classList <$> elementOf d' Samples.div
  | _ => None
  end = Some ["c"; "pane"; "a"; "b"].
Proof. vm_compute. reflexivity. Qed.

(** C7. For every node and every initial class list,
    [toggleClass(node, {x: true, y: false})] ends as [addClass(node, 'x')]
    followed by [removeClass(node, 'y')] does: with the same document, or
    with the same exception. *)
Theorem toggleClass_x_y d n :
  toggleClass d (Some n) [Samples.x_not_y]
  = (let* d1 := addClass d (Some n) [VStr "x"] in
     removeClass d1 (Some n) [VStr "y"]).
Proof.
  unfold toggleClass, Samples.x_not_y. cbn -[addClass removeClass].
  destruct (addClass d (Some n) [VStr "x"]) as [d1| |]; cbn [bind]; try done.
  apply bind_Ret.
Qed.

(** C10. For every element, [addClass] and [removeClass] called with no
    class-name argument, with arguments that are all falsy, or with
    arguments whose composition trims to the empty string, hand the one
    token [''] to the class list and end with its [SyntaxError]. *)
Theorem addClass_empty_token d n e classNames :
  elementOf d n = Some e ->
  classNames = [] \/ Forall (fun v => truthy v = false) classNames
    \/ trim (classnames classNames) = "" ->
  tokensOf classNames = [""]
  /\ addClass d (Some n) classNames = Throw SyntaxError
  /\ removeClass d (Some n) classNames = Throw SyntaxError.
Proof.
  intros He H.
  assert (Htrim : trim (classnames classNames) = "").
  { destruct H as [-> | [H | H]]; [done | | done].
    by rewrite (falsy_classnames _ H). }
  assert (Htok : tokensOf classNames = [""]).
  { unfold tokensOf. by rewrite Htrim. }
  split; [done|].
  unfold addClass, removeClass, tokenListAdd, tokenListRemove.
  by rewrite He, Htok.
Qed.

Lemma addClass_empty_token_witness :
  addClass Samples.pane (Some Samples.div) [] = Throw SyntaxError.
Proof.
  apply (addClass_empty_token Samples.pane Samples.div Samples.scroller []).
  - reflexivity.
  - left. reflexivity.
Defined.

(** C8 (as amended). The class operations [setClass], [addClass],
    [removeClass] and [toggleClass] leave the document as it is and raise
    nothing when the target is absent, whatever the other arguments;
    [removeFromDOM] and [inViewport] raise nothing on an element, but on
    an absent target both raise a [TypeError]. *)
Theorem absent_target d classNames offset :
  (setClass d None classNames = Ret d
   /\ addClass d None classNames = Ret d
   /\ removeClass d None classNames = Ret d
   /\ toggleClass d None classNames = Ret d)
  /\ (forall n e, elementOf d n = Some e ->
        (exists d', removeFromDOM d (Some n) = Ret d')
        /\ (exists b, inViewport d (Some n) offset = Ret b))
  /\ removeFromDOM d None = Throw TypeError
  /\ inViewport d None offset = Throw TypeError.
Proof.
  split; [|split; [|done]].
  - repeat split; try done. apply toggleClass_absent.
  - intros n e He. split.
    + unfold removeFromDOM. destruct (parentOf d n); eauto.
    + unfold inViewport, Scroll.boundingTop. rewrite He. simpl. eauto.
Qed.

Lemma absent_target_witness :
  (exists d', removeFromDOM Samples.pane (Some Samples.para) = Ret d')
  /\ (exists b, inViewport Samples.pane (Some Samples.para) 0 = Ret b).
Proof.
  apply (proj1 (proj2 (absent_target Samples.pane [] 0))
           Samples.para (Samples.plain 100)).
  reflexivity.
Defined.

(** C8 (as stated) fails: called on [null], [removeFromDOM] and
    [inViewport] throw. *)
Lemma removeFromDOM_inViewport_throw :
  removeFromDOM Samples.pane None = Throw TypeError
  /\ inViewport Samples.pane None 0 = Throw TypeError.
Proof. split; reflexivity. Qed.

End ClassFacts.

Section WatcherFacts.
Import Dom Js Watcher.

(** *** The listener list *)

Lemma dropLast_elem id ls l : l ∈ dropLast id ls -> l ∈ ls.
Proof.
  induction ls as [|l0 rest IH]; simpl; [done|].
  destruct (_ && _).
  - intros. by right.
  - rewrite !elem_of_cons. intros [->|H]; auto.
Qed.

Lemma dropLast_keeps id ls l : l ∈ ls -> lid l <> id -> l ∈ dropLast id ls.
Proof.
  intros Hin Hne. induction ls as [|l0 rest IH]; simpl; [done|].
  apply elem_of_cons in Hin as [->|Hin].
  - rewrite bool_decide_eq_false_2 by done. simpl. by left.
  - destruct (_ && _); [done|]. right. by apply IH.
Qed.

Lemma dropLast_ids id ls r : r ∈ (lid <$> dropLast id ls) -> r ∈ (lid <$> ls).
Proof.
  rewrite !list_elem_of_fmap. intros (l & -> & Hl).
  exists l. split; [done|]. by eapply dropLast_elem.
Qed.

Lemma dropLast_nodup id ls :
  NoDup (lid <$> ls) ->
  NoDup (lid <$> dropLast id ls) /\ id ∉ (lid <$> dropLast id ls).
Proof.
  induction ls as [|l rest IH]; simpl.
  - intros _. split; [constructor | apply not_elem_of_nil].
  - rewrite NoDup_cons. intros [Hl Hrest].
    destruct (IH Hrest) as [IH1 IH2].
    destruct (bool_decide (lid l = id)) eqn:Hid; simpl.
    + apply bool_decide_eq_true_1 in Hid. subst id.
      rewrite bool_decide_eq_false_2 by done. simpl. done.
    + apply bool_decide_eq_false_1 in Hid. simpl. split.
      * apply NoDup_cons. split; [|done].
        intros H. apply Hl. by eapply dropLast_ids.
      * rewrite not_elem_of_cons. split; [congruence|done].
Qed.

Lemma dropLast_Forall (P : Listener -> Prop) id ls :
  Forall P ls -> Forall P (dropLast id ls).
Proof.
  rewrite !Forall_forall. intros H l Hl. apply H. by eapply dropLast_elem.
Qed.

(** *** Counting calls *)

Lemma timesCalled_invoked r id args w :
  timesCalled r (invoked id args w)
  = (timesCalled r w + if bool_decide (id = r) then 1 else 0)%nat.
Proof.
  unfold timesCalled, invoked. simpl. rewrite filter_app, length_app.
  f_equal. rewrite filter_cons, filter_nil. simpl.
  case_decide; case_bool_decide; done.
Qed.

Lemma timesCalled_zero r w : r ∉ (callee <$> calls w) -> timesCalled r w = 0%nat.
Proof.
  unfold timesCalled. induction (calls w) as [|c cs IH]; [done|].
  rewrite fmap_cons, not_elem_of_cons. intros [Hne H].
  rewrite filter_cons. case_decide; [congruence|]. by apply IH.
Qed.

Lemma fresh_silent w : fresh w -> silent (made w) (mkWorld (doc w) (listeners w) (calls w) (S (made w))).
Proof.
  intros [Hl Hc]. split; [simpl; lia|]. simpl.
  split; rewrite list_elem_of_fmap; intros (x & Hx & Hin).
  - rewrite Forall_forall in Hl. specialize (Hl x Hin). lia.
  - rewrite Forall_forall in Hc. specialize (Hc x Hin). lia.
Qed.

(** *** Events delivered one at a time *)

Lemma orderly_start d : orderly (start d).
Proof.
  split.
  - split; constructor.
  - constructor.
  - constructor.
  - intros r. unfold timesCalled. simpl. lia.
  - intros r H. by apply elem_of_nil in H.
  - constructor.
Qed.

Lemma orderly_same w w' :
  listeners w' = listeners w -> calls w' = calls w ->
  (made w <= made w')%nat -> orderly w -> orderly w'.
Proof.
  intros Hl Hc Hm [[Hf1 Hf2] Hn Hq Ho Hg Ha].
  split; unfold fresh, timesCalled in *; rewrite ?Hl, ?Hc; try done.
  split.
  - eapply Forall_impl; [exact Hf1|]. simpl. intros. lia.
  - eapply Forall_impl; [exact Hf2|]. simpl. intros. lia.
Qed.

Lemma orderly_on w l :
  orderly w -> lid l = made w -> quiet (callback l) = true ->
  orderly (on l (mkWorld (doc w) (listeners w) (calls w) (S (made w)))).
Proof.
  intros [[Hf1 Hf2] Hn Hq Ho Hg Ha] Hid Hcb.
  assert (Hnew : lid l ∉ (lid <$> listeners w)).
  { rewrite list_elem_of_fmap. intros (x & Hx & Hin).
    rewrite Forall_forall in Hf1. specialize (Hf1 x Hin). lia. }
  split; unfold fresh, on, timesCalled in *; simpl.
  - split.
    + apply Forall_app. split.
      * eapply Forall_impl; [exact Hf1|]. simpl. intros. lia.
      * constructor; [lia|constructor].
    + eapply Forall_impl; [exact Hf2|]. simpl. intros. lia.
  - rewrite fmap_app. apply NoDup_app. split; [done|]. split.
    + intros x Hx. simpl. rewrite list_elem_of_singleton. congruence.
    + simpl. apply NoDup_singleton.
  - apply Forall_app. split; [done|]. by repeat constructor.
  - done.
  - intros r. rewrite fmap_app, elem_of_app. intros [H|H]; [by apply Hg|].
    simpl in H. apply list_elem_of_singleton in H. subst r.
    apply (timesCalled_zero _ w). rewrite list_elem_of_fmap.
    intros (c & Hc & Hin). rewrite Forall_forall in Hf2.
    specialize (Hf2 c Hin). lia.
  - done.
Qed.

Lemma grown_onRemoveFromDOM w element cb :
  orderly w -> quiet cb = true ->
  grown w (onRemoveFromDOM w element cb).1.
Proof.
  intros Hw Hcb. unfold onRemoveFromDOM. simpl.
  destruct (isElementInDOM (doc w) element) as [[|]| |]; simpl.
  - split; [by apply (orderly_on w (mkListener (made w) element cb))|].
    split; [done|]. intros l Hl. simpl. apply elem_of_app. by left.
  - split; [|done]. eapply orderly_same; [..|exact Hw]; simpl; auto.
  - split; [|done]. eapply orderly_same; [..|exact Hw]; simpl; auto.
  - split; [|done]. eapply orderly_same; [..|exact Hw]; simpl; auto.
Qed.

Lemma grown_trans w1 w2 w3 : grown w1 w2 -> grown w2 w3 -> grown w1 w3.
Proof.
  intros (_ & Hc1 & Hl1) (Ho & Hc2 & Hl2).
  split; [done|]. split; [congruence|auto].
Qed.

(** Running code that never emits runs no callback. *)
Lemma grown_exec_quiet em p :
  quiet p = true -> forall w, orderly w -> grown w (exec em p w).1.
Proof.
  induction p as [| |f next IH|next IH|element cb _ next IH]; simpl;
    intros Hq w Hw.
  - done.
  - done.
  - eapply grown_trans; [|apply IH; [done|]].
    + split; [|done]. eapply orderly_same; [..|exact Hw]; simpl; auto.
    + eapply orderly_same; [..|exact Hw]; simpl; auto.
  - discriminate.
  - apply andb_prop in Hq as [Hcb Hnext].
    pose proof (grown_onRemoveFromDOM w element cb Hw Hcb) as Hg.
    destruct (onRemoveFromDOM w element cb) as [w' []]; simpl in *; try done.
    eapply grown_trans; [exact Hg|]. apply IH; [done|]. apply Hg.
Qed.

Lemma orderly_onMutation em l w :
  orderly w -> l ∈ listeners w ->
  orderly (onMutation (exec em) l w).1
  /\ forall l', l' ∈ listeners w -> lid l' <> lid l ->
       l' ∈ listeners (onMutation (exec em) l w).1.
Proof.
  intros Hw Hl. unfold onMutation.
  destruct (isElementInDOM (doc w) (watched l)) as [[|]| |]; simpl; try done.
  destruct Hw as [[Hf1 Hf2] Hn Hq Ho Hg Ha].
  destruct (dropLast_nodup (lid l) (listeners w) Hn) as [Hn' Hout].
  assert (Hquiet : quiet (callback l) = true).
  { rewrite Forall_forall in Hq. by apply Hq. }
  assert (Hlt : (lid l < made w)%nat).
  { rewrite Forall_forall in Hf1. by apply Hf1. }
  assert (Hw1 : orderly (invoked (lid l) [] (removeListener (lid l) w))).
  { split; simpl.
    - split; simpl; [by apply dropLast_Forall|].
      apply Forall_app. split; [done|]. by repeat constructor.
    - done.
    - by apply dropLast_Forall.
    - intros r. rewrite timesCalled_invoked.
      change (timesCalled r (removeListener (lid l) w)) with (timesCalled r w).
      case_bool_decide as Hr; [|specialize (Ho r); lia].
      subst r. rewrite Hg; [lia|]. by apply list_elem_of_fmap_2.
    - intros r Hr. rewrite timesCalled_invoked.
      change (timesCalled r (removeListener (lid l) w)) with (timesCalled r w).
      rewrite Hg by (by eapply dropLast_ids).
      rewrite bool_decide_eq_false_2; [done|]. intros <-. done.
    - apply Forall_app. split; [done|]. by repeat constructor. }
  destruct (grown_exec_quiet em (callback l) Hquiet _ Hw1) as (Ho' & _ & Hl').
  split; [done|]. intros l' Hin Hne. apply Hl'. simpl.
  by apply dropLast_keeps.
Qed.

Lemma orderly_dispatch em copy :
  forall w, orderly w -> NoDup (lid <$> copy) ->
    (forall l, l ∈ copy -> l ∈ listeners w) ->
    orderly (dispatch (onMutation (exec em)) copy w).1.
Proof.
  induction copy as [|l rest IH]; simpl; intros w Hw Hnd Hin; [done|].
  apply NoDup_cons in Hnd as [Hl Hrest].
  destruct (orderly_onMutation em l w Hw) as [Ho Hkeep].
  { apply Hin. by left. }
  destruct (onMutation (exec em) l w) as [w' []]; simpl in *; try done.
  apply IH; [done|done|]. intros l' Hl'. apply Hkeep.
  - apply Hin. by right.
  - intros Heq. apply Hl. rewrite <- Heq. by apply list_elem_of_fmap_2.
Qed.

Lemma orderly_emit fuel w : orderly w -> orderly (emit fuel w).1.
Proof.
  intros Hw. destruct fuel as [|fuel]; simpl; [done|].
  apply orderly_dispatch; [done|apply Hw|done].
Qed.

Lemma orderly_exec fuel p :
  sequential p = true -> forall w, orderly w -> orderly (exec (emit fuel) p w).1.
Proof.
  induction p as [| |f next IH|next IH|element cb _ next IH]; simpl;
    intros Hs w Hw.
  - done.
  - done.
  - apply IH; [done|]. eapply orderly_same; [..|exact Hw]; simpl; auto.
  - pose proof (orderly_emit fuel w Hw) as He.
    destruct (emit fuel w) as [w' []]; simpl in *; try done. by apply IH.
  - apply andb_prop in Hs as [Hcb Hnext].
    destruct (grown_onRemoveFromDOM w element cb Hw Hcb) as [Hg _].
    destruct (onRemoveFromDOM w element cb) as [w' []]; simpl in *; try done.
    by apply IH.
Qed.

Lemma orderly_session fuel turns :
  Forall (fun p => sequential p = true) turns ->
  forall w, orderly w -> orderly (session fuel turns w).
Proof.
  unfold session. induction 1 as [|p turns Hp _ IH]; simpl; intros w Hw; [done|].
  apply IH. by apply orderly_exec.
Qed.

(** *** A registration that never listens *)

Lemma silent_onRemoveFromDOM r w element cb :
  silent r w -> silent r (onRemoveFromDOM w element cb).1.
Proof.
  intros (Hlt & Hl & Hc). unfold onRemoveFromDOM, silent. simpl.
  destruct (isElementInDOM (doc w) element) as [[|]| |]; simpl;
    (split; [lia|split; [|done]]); try done.
  rewrite fmap_app, elem_of_app. intros [H|H]; [done|].
  simpl in H. apply list_elem_of_singleton in H. lia.
Qed.

Lemma silent_exec r em :
  (forall w, silent r w -> silent r (em w).1) ->
  forall p w, silent r w -> silent r (exec em p w).1.
Proof.
  intros Hem. induction p as [| |f next IH|next IH|element cb _ next IH];
    simpl; intros w Hw.
  - done.
  - done.
  - by apply IH.
  - pose proof (Hem w Hw) as H.
    destruct (em w) as [w' []]; simpl in *; try done. by apply IH.
  - pose proof (silent_onRemoveFromDOM r w element cb Hw) as H.
    destruct (onRemoveFromDOM w element cb) as [w' []]; simpl in *; try done.
    by apply IH.
Qed.

Lemma silent_onMutation r em l w :
  (forall w, silent r w -> silent r (em w).1) ->
  lid l <> r -> silent r w -> silent r (onMutation (exec em) l w).1.
Proof.
  intros Hem Hne (Hlt & Hl & Hc). unfold onMutation.
  destruct (isElementInDOM (doc w) (watched l)) as [[|]| |]; simpl; try done.
  apply silent_exec; [done|]. split; [done|]. simpl. split.
  - intros H. apply Hl. by eapply dropLast_ids.
  - rewrite fmap_app, elem_of_app. intros [H|H]; [done|].
    simpl in H. apply list_elem_of_singleton in H. congruence.
Qed.

Lemma silent_dispatch r em copy :
  (forall w, silent r w -> silent r (em w).1) ->
  r ∉ (lid <$> copy) ->
  forall w, silent r w -> silent r (dispatch (onMutation (exec em)) copy w).1.
Proof.
  intros Hem. induction copy as [|l rest IH]; simpl; intros Hr w Hw; [done|].
  apply not_elem_of_cons in Hr as [Hne Hr].
  pose proof (silent_onMutation r em l w Hem (not_eq_sym Hne) Hw) as H.
  destruct (onMutation (exec em) l w) as [w' []]; simpl in *; try done.
  by apply IH.
Qed.

Lemma silent_emit r fuel : forall w, silent r w -> silent r (emit fuel w).1.
Proof.
  induction fuel as [|fuel IH]; simpl; intros w Hw; [done|].
  apply silent_dispatch; [done|apply Hw|done].
Qed.

Lemma silent_session r fuel turns :
  forall w, silent r w -> silent r (session fuel turns w).
Proof.
  unfold session. induction turns as [|p turns IH]; simpl; intros w Hw; [done|].
  apply IH. apply silent_exec; [|done]. apply silent_emit.
Qed.

(** *** Identities stay below the counter, whatever the page does *)

Lemma later_refl w : fresh w -> later w w.
Proof. by split. Qed.

Lemma later_trans w1 w2 w3 : later w1 w2 -> later w2 w3 -> later w1 w3.
Proof. intros [_ H1] [Hf H2]. split; [done|lia]. Qed.

Lemma later_onRemoveFromDOM w element cb :
  fresh w -> later w (onRemoveFromDOM w element cb).1.
Proof.
  intros [Hf1 Hf2].
  assert (Hf1' : Forall (fun l => (lid l < S (made w))%nat) (listeners w)).
  { eapply Forall_impl; [exact Hf1|]. simpl. intros. lia. }
  assert (Hf2' : Forall (fun c => (callee c < S (made w))%nat) (calls w)).
  { eapply Forall_impl; [exact Hf2|]. simpl. intros. lia. }
  unfold onRemoveFromDOM, later, fresh. simpl.
  destruct (isElementInDOM (doc w) element) as [[|]| |]; simpl;
    (split; [split; [|done]|lia]); try done.
  apply Forall_app. split; [done|]. constructor; [simpl; lia|constructor].
Qed.

Lemma later_exec em :
  (forall w, fresh w -> later w (em w).1) ->
  forall p w, fresh w -> later w (exec em p w).1.
Proof.
  intros Hem. induction p as [| |f next IH|next IH|element cb _ next IH];
    simpl; intros w Hw.
  - by apply later_refl.
  - by apply later_refl.
  - by apply (IH (mkWorld (f (doc w)) (listeners w) (calls w) (made w))).
  - pose proof (Hem w Hw) as H.
    destruct (em w) as [w' []]; simpl in *; try done.
    eapply later_trans; [exact H|]. apply IH, H.
  - pose proof (later_onRemoveFromDOM w element cb Hw) as H.
    destruct (onRemoveFromDOM w element cb) as [w' []]; simpl in *; try done.
    eapply later_trans; [exact H|]. apply IH, H.
Qed.

Lemma later_onMutation em l w :
  (forall w, fresh w -> later w (em w).1) ->
  (lid l < made w)%nat -> fresh w -> later w (onMutation (exec em) l w).1.
Proof.
  intros Hem Hlt Hw. unfold onMutation.
  destruct (isElementInDOM (doc w) (watched l)) as [[|]| |]; simpl;
    try by apply later_refl.
  apply (later_exec em Hem (callback l)
           (invoked (lid l) [] (removeListener (lid l) w))).
  destruct Hw as [Hf1 Hf2]. split; simpl.
  - by apply dropLast_Forall.
  - apply Forall_app. split; [done|]. constructor; [done|constructor].
Qed.

Lemma later_dispatch em copy :
  (forall w, fresh w -> later w (em w).1) ->
  forall w, fresh w -> Forall (fun l => (lid l < made w)%nat) copy ->
    later w (dispatch (onMutation (exec em)) copy w).1.
Proof.
  intros Hem. induction copy as [|l rest IH]; simpl; intros w Hw Hcopy.
  - by apply later_refl.
  - apply Forall_cons in Hcopy as [Hl Hrest].
    pose proof (later_onMutation em l w Hem Hl Hw) as H.
    destruct (onMutation (exec em) l w) as [w' []]; simpl in *; try done.
    eapply later_trans; [exact H|]. apply IH; [apply H|].
    eapply Forall_impl; [exact Hrest|]. simpl. intros. destruct H. lia.
Qed.

Lemma later_emit fuel : forall w, fresh w -> later w (emit fuel w).1.
Proof.
  induction fuel as [|fuel IH]; simpl; intros w Hw.
  - by apply later_refl.
  - apply later_dispatch; [done|done|apply Hw].
Qed.

Lemma fresh_session fuel turns : forall w, fresh w -> fresh (session fuel turns w).
Proof.
  unfold session. induction turns as [|p turns IH]; simpl; intros w Hw; [done|].
  apply IH. apply (later_exec (emit fuel) (later_emit fuel) p w Hw).
Qed.

Lemma fresh_start d : fresh (start d).
Proof. split; constructor. Qed.

(** C3. Mutation events come from the observer (or its polling
    fallback), one at a time: the turns of the page emit, its callbacks
    do not.  Then in every state the page reaches each registration's
    callback has run at most once, without arguments, and a registration
    whose callback has run is no longer listening, so that no later
    mutation event invokes it again; for when [onMutation] finds the node
    outside the document, it removes itself from the listeners first and
    calls the callback then. *)
Theorem onRemoveFromDOM_at_most_once fuel turns d r :
  Forall (fun p => sequential p = true) turns ->
  (timesCalled r (session fuel turns (start d)) <= 1)%nat
  /\ (timesCalled r (session fuel turns (start d)) = 1%nat ->
      r ∉ (lid <$> listeners (session fuel turns (start d))))
  /\ Forall (fun c => arguments c = []) (calls (session fuel turns (start d)))
  /\ (forall call l w,
        isElementInDOM (doc w) (watched l) = Ret false ->
        onMutation call l w
        = call (callback l) (invoked (lid l) [] (removeListener (lid l) w))).
Proof.
  intros Hseq.
  destruct (orderly_session fuel turns Hseq (start d) (orderly_start d))
    as [_ _ _ Ho Hg Ha].
  split; [apply Ho|]. split; [|split; [done|]].
  - intros H1 Hin. specialize (Hg r Hin). lia.
  - intros call l w H. unfold onMutation. by rewrite H.
Qed.

Lemma onRemoveFromDOM_at_most_once_witness :
  (timesCalled 0 (session 2 Samples.throwing (start Samples.pane)) <= 1)%nat.
Proof.
  apply (onRemoveFromDOM_at_most_once 2 Samples.throwing Samples.pane 0).
  repeat constructor.
Defined.

(** C4. In every state the page reaches, [onRemoveFromDOM] called with a
    node that is not in the document returns without adding a listener,
    and whatever happens afterwards the callback of that registration is
    never invoked. *)
Theorem onRemoveFromDOM_detached fuel0 before d element cb fuel turns :
  isElementInDOM (doc (session fuel0 before (start d))) element = Ret false ->
  (onRemoveFromDOM (session fuel0 before (start d)) element cb).2 = Normal
  /\ listeners (onRemoveFromDOM (session fuel0 before (start d)) element cb).1
     = listeners (session fuel0 before (start d))
  /\ timesCalled (made (session fuel0 before (start d)))
       (session fuel turns
          (onRemoveFromDOM (session fuel0 before (start d)) element cb).1)
     = 0%nat.
Proof.
  set (w := session fuel0 before (start d)). intros Hout.
  assert (Hw : fresh w) by apply fresh_session, fresh_start.
  unfold onRemoveFromDOM. simpl. rewrite Hout. simpl.
  split; [done|]. split; [done|].
  apply timesCalled_zero. apply silent_session. by apply fresh_silent.
Qed.

Lemma onRemoveFromDOM_detached_witness :
  timesCalled 0
    (session 2 [Emit Done; Emit Done]
       (onRemoveFromDOM (session 0 [] (start Samples.pane))
          (Some Samples.loose) Done).1)
  = 0%nat.
Proof.
  apply (onRemoveFromDOM_detached 0 [] Samples.pane (Some Samples.loose) Done
           2 [Emit Done; Emit Done]).
  reflexivity.
Defined.

End WatcherFacts.

(* ================================================================== *)
(** * Further properties of the helpers *)

Section ScrollMore.
Import Dom Scroll.

Lemma code_qualifies_element d n : code_qualifies d n -> is_Some (elementOf d n).
Proof. intros (e & He & _). eauto. Qed.

Lemma nearest_element d n r : nearest d n r -> is_Some (elementOf d r).
Proof. induction 1; [by apply code_qualifies_element|done]. Qed.

Lemma findScrollableParent_sound_aux d :
  wf d -> forall fuel n r,
    findScrollableParent fuel d (Some n) = Ret (Some r) ->
    nearest d n r
    \/ (r = documentElement d /\ forall a, onWalk d n a -> ~ code_qualifies d a).
Proof.
  intros Hwf. pose proof (wf_distinct d Hwf) as Hne.
  induction fuel as [|fuel IH]; intros n r; [discriminate|].
  rewrite findScrollableParent_unfold by done.
  destruct (qualifies_total d n Hwf) as [[|] Hq]; rewrite Hq; cbn [bind].
  - intros [= <-]. left. constructor. by apply qualifies_true.
  - assert (Hnq : ~ code_qualifies d n).
    { intros H. apply qualifies_true in H. congruence. }
    destruct (parentOf d n) as [p|] eqn:Hp.
    + intros H. destruct (IH p r H) as [Hnear|[-> Hnone]].
      * left. by eapply nearest_up.
      * right. split; [done|]. intros a Ha.
        inversion Ha as [|? p' ? Hp' Hwalk]; subst; [done|].
        rewrite Hp in Hp'. injection Hp' as <-. by apply Hnone.
    + destruct fuel; [discriminate|]. simpl. intros [= <-].
      right. split; [done|]. intros a Ha.
      inversion Ha as [|? p' ? Hp' Hwalk]; subst; [done|]. congruence.
Qed.

(** X1. Whatever node the resolution returns on a well-formed document,
    it is the first node on the walk up from the start that passes the
    test, or it is the root element and no node on the walk passes. *)
Theorem findScrollableParent_sound d fuel n r :
  wf d ->
  findScrollableParent fuel d (Some n) = Ret (Some r) ->
  nearest d n r
  \/ (r = documentElement d /\ forall a, onWalk d n a -> ~ code_qualifies d a).
Proof. intros Hwf. by apply findScrollableParent_sound_aux. Qed.

Lemma findScrollableParent_sound_witness :
  nearest Samples.pane Samples.para Samples.div
  \/ (Samples.div = documentElement Samples.pane
      /\ forall a, onWalk Samples.pane Samples.para a ->
           ~ code_qualifies Samples.pane a).
Proof.
  apply (findScrollableParent_sound Samples.pane 7 Samples.para Samples.div
           wf_pane).
  reflexivity.
Defined.

(** X2. Conversely, when some node on the walk passes the test, the
    first such node is returned once the budget covers the steps up to
    it; no bound on the rest of the tree is needed. *)
Theorem findScrollableParent_complete d n r :
  wf d -> nearest d n r ->
  exists fuel0, forall fuel, (fuel0 <= fuel)%nat ->
    findScrollableParent fuel d (Some n) = Ret (Some r).
Proof.
  intros Hwf. pose proof (wf_distinct d Hwf) as Hne.
  induction 1 as [n Hq|n p r Hnq Hp _ [fuel0 IH]].
  - exists 1%nat. intros [|fuel] Hfuel; [lia|].
    rewrite findScrollableParent_unfold by done.
    apply qualifies_true in Hq. by rewrite Hq.
  - exists (S fuel0). intros [|fuel] Hfuel; [lia|].
    rewrite findScrollableParent_unfold by done.
    destruct (qualifies_total d n Hwf) as [[|] Hq]; rewrite Hq; cbn [bind].
    + by apply qualifies_true in Hq.
    + rewrite Hp. apply IH. lia.
Qed.

Lemma nearest_pane : nearest Samples.pane Samples.para Samples.div.
Proof.
  eapply nearest_up; [|reflexivity|].
  - intros H. apply qualifies_true in H. discriminate.
  - constructor. apply qualifies_true. reflexivity.
Qed.

Lemma findScrollableParent_complete_witness :
  exists fuel0, forall fuel, (fuel0 <= fuel)%nat ->
    findScrollableParent fuel Samples.pane (Some Samples.para)
    = Ret (Some Samples.div).
Proof.
  exact (findScrollableParent_complete Samples.pane Samples.para Samples.div
           wf_pane nearest_pane).
Defined.

(** X3. A node that itself passes the test is its own scrollable
    ancestor, and [scrollByElementTo] on it does nothing: no call of
    [scrollToTop] is made, whatever the offset and the duration. *)
Theorem scrollByElementTo_self d n fuel top duration :
  wf d -> code_qualifies d n ->
  scrollByElementTo (S fuel) d (Some n) top duration = Ret NoScroll.
Proof.
  intros Hwf Hq. unfold scrollByElementTo.
  rewrite findScrollableParent_unfold by by apply wf_distinct.
  apply qualifies_true in Hq. rewrite Hq. cbn [bind].
  unfold same. by rewrite bool_decide_eq_true_2.
Qed.

Lemma scrollByElementTo_self_witness :
  scrollByElementTo 1 Samples.pane (Some Samples.div) 30 (Some 500)
  = Ret NoScroll.
Proof.
  apply (scrollByElementTo_self Samples.pane Samples.div 0 30 (Some 500) wf_pane).
  apply qualifies_true. reflexivity.
Defined.

(** X4. On a well-formed finite document [scrollByElementTo] never
    throws for an element: it does nothing, or it asks for one scroll of
    another element, the one [findScrollableParent] resolves, to the
    node's top minus the ancestor's top plus the offset, over the given
    duration or 200. *)
Theorem scrollByElementTo_element rank d n e fuel top duration :
  wf d -> ranked rank d -> (rank n + 2 <= fuel)%nat ->
  elementOf d n = Some e ->
  scrollByElementTo fuel d (Some n) top duration = Ret NoScroll
  \/ exists p pe,
       p <> n /\ elementOf d p = Some pe
       /\ findScrollableParent fuel d (Some n) = Ret (Some p)
       /\ scrollByElementTo fuel d (Some n) top duration
          = Ret (ScrollToTop p (rectTop e - rectTop pe + top)
                   (default 200 duration)).
Proof.
  intros Hwf Hrk Hfuel He.
  destruct (findScrollableParent_total rank d Hwf Hrk fuel n Hfuel) as [r Hr].
  assert (Hre : is_Some (elementOf d r)).
  { destruct (findScrollableParent_sound_aux d Hwf fuel n r Hr) as [H|[-> _]].
    - by eapply nearest_element.
    - apply Hwf. }
  destruct Hre as [pe Hpe].
  unfold scrollByElementTo, same, boundingTop. rewrite Hr. cbn [bind].
  case_bool_decide as Hsame; [by left|]. right.
  exists r, pe. rewrite He, Hpe. cbn [bind]. split; [congruence|]. done.
Qed.

Lemma scrollByElementTo_element_witness :
  scrollByElementTo 7 Samples.pane (Some Samples.para) 10 None = Ret NoScroll
  \/ exists p pe,
       p <> Samples.para /\ elementOf Samples.pane p = Some pe
       /\ findScrollableParent 7 Samples.pane (Some Samples.para)
          = Ret (Some p)
       /\ scrollByElementTo 7 Samples.pane (Some Samples.para) 10 None
          = Ret (ScrollToTop p (rectTop (Samples.plain 100) - rectTop pe + 10)
                   (default 200 None)).
Proof.
  assert (Hfuel : (Samples.depth Samples.para + 2 <= 7)%nat)
    by (vm_compute; lia).
  exact (scrollByElementTo_element Samples.depth Samples.pane Samples.para
           (Samples.plain 100) 7 10 None wf_pane ranked_pane Hfuel eq_refl).
Defined.

(** X5. On a well-formed document (its root element in place),
    [scrollByElementTo] called without a target does not return quietly:
    the resolution answers the root element, which is not the (absent)
    target, and reading the target's bounding box throws a [TypeError]. *)
Theorem scrollByElementTo_absent d fuel top duration :
  wf d -> (1 <= fuel)%nat ->
  findScrollableParent fuel d None = Ret (Some (documentElement d))
  /\ is_Some (elementOf d (documentElement d))
  /\ parentOf d (documentElement d) = Some (document d)
  /\ scrollByElementTo fuel d None top duration = Throw TypeError.
Proof.
  intros Hwf Hfuel. destruct fuel as [|fuel]; [lia|].
  split; [done|]. split; [apply Hwf|]. split; [apply Hwf|done].
Qed.

Lemma scrollByElementTo_absent_witness :
  scrollByElementTo 1 Samples.pane None 0 None = Throw TypeError.
Proof.
  assert (Hfuel : (1 <= 1)%nat) by lia.
  exact (proj2 (proj2 (proj2 (scrollByElementTo_absent Samples.pane 1 0 None
                                wf_pane Hfuel)))).
Defined.

End ScrollMore.

Section StringFacts.
Import Js Classes.

Lemma isAsciiSpace_isSpace c : isAsciiSpace c = true -> isSpace c = true.
Proof.
  unfold isAsciiSpace, isSpace. rewrite !bool_decide_eq_true.
  rewrite !elem_of_cons. tauto.
Qed.

Lemma spaceless_hasAsciiSpace t : spaceless t = true -> hasAsciiSpace t = false.
Proof.
  unfold hasAsciiSpace. induction t as [|c r IH]; simpl; [done|].
  intros H. apply andb_prop in H as [Hc Hr]. rewrite (IH Hr).
  destruct (isAsciiSpace c) eqn:Ha; [|done].
  apply isAsciiSpace_isSpace in Ha. by rewrite Ha in Hc.
Qed.

Lemma validate_tokens ts :
  Forall (fun t => token t = true) ts -> validate ts = Ret tt.
Proof.
  induction 1 as [|t ts Ht _ IH]; simpl; [done|].
  apply andb_prop in Ht as [Hne Hsp]. apply negb_true_iff in Hne.
  by rewrite Hne, (spaceless_hasAsciiSpace t Hsp).
Qed.

Lemma splitRuns_spaceless s :
  forall b, Forall (fun t => spaceless t = true) (splitRuns isSpace b s).
Proof.
  induction s as [|c r IH]; intros b; simpl.
  - by repeat constructor.
  - destruct (isSpace c) eqn:Hc.
    + destruct b; [apply IH|]. constructor; [done|apply IH].
    + specialize (IH false). destruct (splitRuns isSpace false r) as [|p ps].
      * repeat constructor. simpl. by rewrite Hc.
      * apply Forall_cons in IH as [Hp Hps]. constructor; [|done].
        simpl. by rewrite Hc, Hp.
Qed.

(** The pieces of a string that does not end in white space: all but the
    first are non-empty, and so is the first when the string does not
    start with white space or follows a separator. *)
Lemma splitRuns_trimEnd u :
  forall b, trimEnd u <> "" ->
    match splitRuns isSpace b (trimEnd u) with
    | [] => False
    | p :: ps =>
      Forall (fun t => t <> "") ps
      /\ (b = true
          \/ match trimEnd u with
             | String c _ => isSpace c = false
             | EmptyString => False
             end -> p <> "")
    end.
Proof.
  induction u as [|c r IH]; intros b; simpl; [done|].
  destruct (trimEnd r) as [|c' r'] eqn:Hr.
  - destruct (isSpace c) eqn:Hc; [done|]. intros _. simpl. rewrite Hc. simpl.
    split; [constructor|done].
  - remember (String c' r') as v eqn:Hv.
    assert (Hne : v <> "") by (subst v; done).
    intros _. cbn [splitRuns]. destruct (isSpace c) eqn:Hc.
    + pose proof (IH true Hne) as IHt.
      destruct (splitRuns isSpace true v) as [|p ps] eqn:Hs; [done|].
      destruct IHt as [Hps Hp]. destruct b.
      * split; [done|]. intros _. apply Hp. by left.
      * split; [constructor; [apply Hp; by left|done]|].
        intros [?|?]; congruence.
    + pose proof (IH false Hne) as IHf.
      destruct (splitRuns isSpace false v) as [|p ps]; [done|].
      destruct IHf as [Hps _]. split; [done|]. intros _. done.
Qed.

Lemma trimStart_head s :
  match trimStart s with
  | String c _ => isSpace c = false
  | EmptyString => True
  end.
Proof.
  induction s as [|c r IH]; simpl; [done|].
  destruct (isSpace c) eqn:Hc; [done|]. simpl. done.
Qed.

Lemma trimEnd_head u :
  match u with
  | String c _ => isSpace c = false
  | EmptyString => True
  end ->
  match trimEnd u with
  | String c _ => isSpace c = false
  | EmptyString => True
  end.
Proof.
  destruct u as [|c r]; simpl; [done|]. intros Hc.
  destruct (trimEnd r); [by rewrite Hc|done].
Qed.

(** Splitting a trimmed, non-blank string gives class names only. *)
Lemma splitSpaces_trim s :
  trim s <> "" -> Forall (fun t => token t = true) (splitSpaces (trim s)).
Proof.
  intros Hne. unfold splitSpaces, trim in *.
  pose proof (splitRuns_trimEnd (trimStart s) false Hne) as H.
  pose proof (trimEnd_head _ (trimStart_head s)) as Hhead.
  pose proof (splitRuns_spaceless (trimEnd (trimStart s)) false) as Hsp.
  destruct (splitRuns isSpace false (trimEnd (trimStart s))) as [|p ps]; [done|].
  destruct H as [Hps Hp].
  assert (Hp' : p <> "").
  { apply Hp. right. by destruct (trimEnd (trimStart s)). }
  apply Forall_cons in Hsp as [Hsp1 Hsp2]. constructor.
  - unfold token. rewrite Hsp1, bool_decide_eq_false_2 by done. done.
  - rewrite Forall_forall in *. intros t Ht. unfold token.
    rewrite (Hsp2 t Ht), bool_decide_eq_false_2 by (by apply Hps). done.
Qed.

Lemma trimEnd_spaceless t : spaceless t = true -> trimEnd t = t.
Proof.
  induction t as [|c r IH]; simpl; [done|].
  intros H. apply andb_prop in H as [Hc Hr]. rewrite (IH Hr).
  apply negb_true_iff in Hc. rewrite Hc. by destruct r.
Qed.

Lemma splitRuns_spaceless_one t :
  spaceless t = true -> splitRuns isSpace false t = [t].
Proof.
  induction t as [|c r IH]; simpl; [done|].
  intros H. apply andb_prop in H as [Hc Hr]. rewrite (IH Hr).
  apply negb_true_iff in Hc. by rewrite Hc.
Qed.

(** A class name passed as the one string argument is the one token. *)
Lemma tokensOf_token t : token t = true -> tokensOf [VStr t] = [t].
Proof.
  intros H. apply andb_prop in H as [Hne Hsp]. apply negb_true_iff in Hne.
  unfold tokensOf, classnames. simpl. rewrite Hne. simpl.
  unfold splitSpaces, trim.
  assert (trimStart t = t) as ->.
  { destruct t as [|c r]; [done|]. simpl in *.
    apply andb_prop in Hsp as [Hc _]. apply negb_true_iff in Hc. by rewrite Hc. }
  rewrite (trimEnd_spaceless t Hsp). by apply splitRuns_spaceless_one.
Qed.

End StringFacts.

Section ClassMore.
Import Dom Js Classes.

(** *** The ordered token set *)

Lemma addToken_prefix set t : set `prefix_of` addToken set t.
Proof. unfold addToken. case_bool_decide; [done|]. by apply prefix_app_r. Qed.

Lemma foldl_addToken_prefix ts : forall set, set `prefix_of` foldl addToken set ts.
Proof.
  induction ts as [|t ts IH]; intros set; simpl; [done|].
  etrans; [apply addToken_prefix|apply IH].
Qed.

Lemma foldl_addToken_elem ts :
  forall set x, x ∈ foldl addToken set ts <-> x ∈ set \/ x ∈ ts.
Proof.
  induction ts as [|t ts IH]; intros set x; simpl.
  - rewrite elem_of_nil. tauto.
  - rewrite IH, addToken_elem, elem_of_cons. tauto.
Qed.

Lemma addToken_NoDup set t : NoDup set -> NoDup (addToken set t).
Proof.
  intros H. unfold addToken. case_bool_decide as Ht; [done|].
  apply NoDup_app. split; [done|]. split; [|apply NoDup_singleton].
  intros x Hx. rewrite list_elem_of_singleton. by intros ->.
Qed.

Lemma foldl_addToken_NoDup ts :
  forall set, NoDup set -> NoDup (foldl addToken set ts).
Proof.
  induction ts as [|t ts IH]; intros set H; simpl; [done|].
  by apply IH, addToken_NoDup.
Qed.

Lemma foldl_addToken_absorb ts :
  forall set, (forall t, t ∈ ts -> t ∈ set) -> foldl addToken set ts = set.
Proof.
  induction ts as [|t ts IH]; intros set H; simpl; [done|].
  rewrite addToken_present by (apply H; by left).
  apply IH. intros t' Ht'. apply H. by right.
Qed.

Lemma foldl_removeToken ts :
  forall set, foldl removeToken set ts = filter (fun x => x ∉ ts) set.
Proof.
  induction ts as [|t ts IH]; intros set; simpl.
  - induction set as [|x set IHs]; [done|].
    rewrite filter_cons. rewrite decide_True by apply not_elem_of_nil.
    by rewrite <- IHs.
  - rewrite IH. unfold removeToken. rewrite list_filter_filter.
    apply list_filter_iff. intros x. rewrite not_elem_of_cons. tauto.
Qed.

Lemma filter_addToken (P : string -> Prop) `{Hdec : !forall x, Decision (P x)} set t :
  ~ P t -> filter P (addToken set t) = filter P set.
Proof.
  intros Ht. unfold addToken. case_bool_decide; [done|].
  rewrite filter_app, filter_cons, decide_False by done.
  by rewrite filter_nil, app_nil_r.
Qed.

Lemma filter_foldl_addToken (P : string -> Prop) `{Hdec : !forall x, Decision (P x)} ts :
  forall set, (forall t, t ∈ ts -> ~ P t) ->
    filter P (foldl addToken set ts) = filter P set.
Proof.
  induction ts as [|t ts IH]; intros set H; simpl; [done|].
  rewrite IH by (intros t' Ht'; apply H; by right).
  apply filter_addToken. apply H. by left.
Qed.

(** *** Updating one element *)

Lemma elementOf_setElement_ne d n m e :
  m <> n -> elementOf (setElement d n e) m = elementOf d m.
Proof.
  intros Hne. unfold elementOf, setElement. simpl.
  by rewrite lookup_alter_ne.
Qed.

Lemma parentOf_setElement d n m e : parentOf (setElement d n e) m = parentOf d m.
Proof.
  unfold parentOf, setElement. simpl.
  destruct (decide (n = m)) as [->|Hne].
  - rewrite lookup_alter_eq. by destruct (nodes d !! m).
  - by rewrite lookup_alter_ne.
Qed.

Lemma setElement_over d n e1 e2 :
  setElement (setElement d n e1) n e2 = setElement d n e2.
Proof.
  unfold setElement. simpl. f_equal.
  rewrite alter_alter_eq. by apply alter_ext.
Qed.

(** What [addClass] and [removeClass] come to on an element. *)
Lemma addClass_element d n e classNames :
  elementOf d n = Some e ->
  addClass d (Some n) classNames
  = let* _ := validate (tokensOf classNames) in
    Ret (setElement d n
           (withClassList e (foldl addToken (classList e) (tokensOf classNames)))).
Proof.
  intros He. unfold addClass, tokenListAdd. rewrite He.
  by destruct (validate (tokensOf classNames)).
Qed.

Lemma removeClass_element d n e classNames :
  elementOf d n = Some e ->
  removeClass d (Some n) classNames
  = let* _ := validate (tokensOf classNames) in
    Ret (setElement d n
           (withClassList e
              (foldl removeToken (classList e) (tokensOf classNames)))).
Proof.
  intros He. unfold removeClass, tokenListRemove. rewrite He.
  by destruct (validate (tokensOf classNames)).
Qed.

(** X6. On an element, [addClass] and [removeClass] succeed whenever the
    composed class string is not blank: the pieces handed to the class
    list are then non-empty and free of white space, so neither of its
    errors can arise.  (The blank case is the [SyntaxError] of C10.) *)
Theorem addClass_succeeds d n e classNames :
  elementOf d n = Some e ->
  trim (classnames classNames) <> "" ->
  Forall (fun t => token t = true) (tokensOf classNames)
  /\ (exists d', addClass d (Some n) classNames = Ret d')
  /\ (exists d', removeClass d (Some n) classNames = Ret d').
Proof.
  intros He Hne.
  assert (Htok : Forall (fun t => token t = true) (tokensOf classNames))
    by by apply splitSpaces_trim.
  split; [done|].
  rewrite (addClass_element d n e), (removeClass_element d n e) by done.
  rewrite (validate_tokens _ Htok). cbn [bind]. eauto.
Qed.

Lemma addClass_succeeds_witness :
  exists d', addClass Samples.pane (Some Samples.div)
               [VStr "  wide  tall "; VNum 7] = Ret d'.
Proof.
  apply (addClass_succeeds Samples.pane Samples.div Samples.scroller
           [VStr "  wide  tall "; VNum 7]).
  - reflexivity.
  - vm_compute. discriminate.
Defined.

(** X7. When [addClass] succeeds on an element, the class list it leaves
    starts with the previous one in its order, holds exactly the previous
    classes and the given tokens, and is free of duplicates if the
    previous one was. *)
Theorem addClass_extends d n e classNames d' :
  elementOf d n = Some e ->
  addClass d (Some n) classNames = Ret d' ->
  exists e',
    elementOf d' n = Some e'
    /\ classList e `prefix_of` classList e'
    /\ (forall x, x ∈ classList e' <->
                  x ∈ classList e \/ x ∈ tokensOf classNames)
    /\ (NoDup (classList e) -> NoDup (classList e')).
Proof.
  intros He. rewrite (addClass_element d n e) by done.
  destruct (validate (tokensOf classNames)); cbn [bind]; try discriminate.
  intros [= <-]. eexists. split; [by eapply elementOf_setElement|]. simpl.
  split; [apply foldl_addToken_prefix|].
  split; [intros x; apply foldl_addToken_elem|apply foldl_addToken_NoDup].
Qed.

Lemma addClass_extends_witness :
  exists e',
    elementOf (setElement Samples.pane Samples.div
                 (withClassList Samples.scroller ["c"; "pane"; "wide"]))
      Samples.div = Some e'
    /\ classList Samples.scroller `prefix_of` classList e'
    /\ (forall x, x ∈ classList e' <->
                  x ∈ classList Samples.scroller
                  \/ x ∈ tokensOf [VStr "pane wide"])
    /\ (NoDup (classList Samples.scroller) -> NoDup (classList e')).
Proof.
  apply (addClass_extends Samples.pane Samples.div Samples.scroller
           [VStr "pane wide"]).
  - reflexivity.
  - reflexivity.
Defined.

(** X8. [addClass] is idempotent for every target and every argument
    list: when a call succeeds, the same call on the result succeeds and
    changes nothing. *)
Theorem addClass_idempotent d element classNames d' :
  addClass d element classNames = Ret d' ->
  addClass d' element classNames = Ret d'.
Proof.
  destruct element as [n|]; [|by intros [= <-]].
  destruct (elementOf d n) as [e|] eqn:He;
    [|unfold addClass; rewrite He; discriminate].
  rewrite (addClass_element d n e) by done.
  destruct (validate (tokensOf classNames)) eqn:Hv; cbn [bind]; try discriminate.
  intros [= <-].
  erewrite addClass_element by (by eapply elementOf_setElement).
  rewrite Hv. cbn [bind]. simpl.
  rewrite (foldl_addToken_absorb (tokensOf classNames)
             (foldl addToken (classList e) (tokensOf classNames))).
  - by rewrite setElement_over.
  - intros t Ht. apply foldl_addToken_elem. by right.
Qed.

Lemma addClass_idempotent_witness :
  addClass (setElement Samples.pane Samples.div
              (withClassList Samples.scroller ["c"; "pane"; "wide"]))
    (Some Samples.div) [VStr "pane wide"]
  = Ret (setElement Samples.pane Samples.div
           (withClassList Samples.scroller ["c"; "pane"; "wide"])).
Proof.
  apply (addClass_idempotent Samples.pane (Some Samples.div) [VStr "pane wide"]).
  reflexivity.
Defined.

(** X9. When [removeClass] succeeds on an element, the class list it
    leaves is the previous one without the given tokens, the others kept
    in their order; the same call on the result changes nothing. *)
Theorem removeClass_filters d n e classNames d' :
  elementOf d n = Some e ->
  removeClass d (Some n) classNames = Ret d' ->
  (exists e',
     elementOf d' n = Some e'
     /\ classList e' = filter (fun x => x ∉ tokensOf classNames) (classList e))
  /\ removeClass d' (Some n) classNames = Ret d'.
Proof.
  intros He. rewrite (removeClass_element d n e) by done.
  destruct (validate (tokensOf classNames)) eqn:Hv; cbn [bind]; try discriminate.
  intros [= <-]. split.
  - eexists. split; [by eapply elementOf_setElement|]. simpl.
    apply foldl_removeToken.
  - erewrite removeClass_element by (by eapply elementOf_setElement).
    rewrite Hv. cbn [bind]. simpl. rewrite setElement_over. do 3 f_equal.
    rewrite !foldl_removeToken, list_filter_filter.
    apply list_filter_iff. tauto.
Qed.

Lemma removeClass_filters_witness :
  removeClass (setElement Samples.pane Samples.div
                 (withClassList Samples.scroller ["pane"]))
    (Some Samples.div) [VStr "c"; VStr "gone"]
  = Ret (setElement Samples.pane Samples.div
           (withClassList Samples.scroller ["pane"])).
Proof.
  apply (removeClass_filters Samples.pane Samples.div Samples.scroller
           [VStr "c"; VStr "gone"]).
  - reflexivity.
  - reflexivity.
Defined.

(** X10. Removing classes right after adding the same ones comes to
    removing them from the start: for every target and argument list,
    when [addClass] succeeds, [removeClass] on its result ends as
    [removeClass] on the original document does. *)
Theorem removeClass_after_addClass d element classNames d1 :
  addClass d element classNames = Ret d1 ->
  removeClass d1 element classNames = removeClass d element classNames.
Proof.
  destruct element as [n|]; [|by intros [= <-]].
  destruct (elementOf d n) as [e|] eqn:He;
    [|unfold addClass; rewrite He; discriminate].
  rewrite (addClass_element d n e) by done.
  destruct (validate (tokensOf classNames)) eqn:Hv; cbn [bind]; try discriminate.
  intros [= <-].
  erewrite removeClass_element by (by eapply elementOf_setElement).
  rewrite (removeClass_element d n e) by done.
  rewrite Hv. cbn [bind]. simpl. rewrite setElement_over. do 3 f_equal.
  rewrite !foldl_removeToken. apply filter_foldl_addToken.
  intros t Ht Hnot. done.
Qed.

Lemma removeClass_after_addClass_witness :
  removeClass (setElement Samples.pane Samples.div
                 (withClassList Samples.scroller ["c"; "pane"; "wide"]))
    (Some Samples.div) [VStr "pane wide"]
  = removeClass Samples.pane (Some Samples.div) [VStr "pane wide"].
Proof.
  apply (removeClass_after_addClass Samples.pane (Some Samples.div)
           [VStr "pane wide"]).
  reflexivity.
Defined.

(** *** Nothing else is touched *)

Lemma touchesOnly_refl target d : touchesOnly target d d.
Proof. by repeat split. Qed.

Lemma touchesOnly_trans target d1 d2 d3 :
  touchesOnly target d1 d2 -> touchesOnly target d2 d3 ->
  touchesOnly target d1 d3.
Proof.
  intros (H1 & H2 & H3 & H4 & H5) (K1 & K2 & K3 & K4 & K5).
  split; [congruence|]. split; [congruence|]. split; [congruence|]. split.
  - intros m. by rewrite K4.
  - intros m Hm. by rewrite K5, H5.
Qed.

Lemma touchesOnly_setElement d n e : touchesOnly (Some n) d (setElement d n e).
Proof.
  split; [done|]. split; [done|]. split; [done|]. split.
  - intros m. apply parentOf_setElement.
  - intros m Hm. rewrite elementOf_setElement_ne; [done|congruence].
Qed.

Lemma touchesOnly_addClass d element classNames d' :
  addClass d element classNames = Ret d' -> touchesOnly element d d'.
Proof.
  unfold addClass. destruct element as [n|]; [|intros [= <-]; apply touchesOnly_refl].
  destruct (elementOf d n); [|discriminate].
  destruct (tokenListAdd _ _); cbn [bind]; try discriminate.
  intros [= <-]. apply touchesOnly_setElement.
Qed.

Lemma touchesOnly_removeClass d element classNames d' :
  removeClass d element classNames = Ret d' -> touchesOnly element d d'.
Proof.
  unfold removeClass. destruct element as [n|]; [|intros [= <-]; apply touchesOnly_refl].
  destruct (elementOf d n); [|discriminate].
  destruct (tokenListRemove _ _); cbn [bind]; try discriminate.
  intros [= <-]. apply touchesOnly_setElement.
Qed.

Lemma touchesOnly_setClass d element classNames d' :
  setClass d element classNames = Ret d' -> touchesOnly element d d'.
Proof.
  unfold setClass. destruct element as [n|]; [|intros [= <-]; apply touchesOnly_refl].
  destruct (elementOf d n); intros [= <-];
    [apply touchesOnly_setElement|apply touchesOnly_refl].
Qed.

Lemma touchesOnly_forOwn target
    (f : Document -> Value -> string -> Outcome Document) entries :
  (forall d v k d', f d v k = Ret d' -> touchesOnly target d d') ->
  forall d d', forOwn f entries d = Ret d' -> touchesOnly target d d'.
Proof.
  intros Hf. induction entries as [|[k v] rest IH]; simpl; intros d d'.
  - intros [= <-]. apply touchesOnly_refl.
  - destruct (f d v k) as [d1| |] eqn:Hstep; cbn [bind]; try discriminate.
    intros Hrest. eapply touchesOnly_trans; [by eapply Hf|by apply IH].
Qed.

Lemma touchesOnly_toggleClass d element args d' :
  toggleClass d element args = Ret d' -> touchesOnly element d d'.
Proof.
  unfold toggleClass.
  assert (forall es d d',
            forOwn (fun d v k =>
                      if truthy v then addClass d element [VStr k]
                      else removeClass d element [VStr k]) es d = Ret d' ->
            touchesOnly element d d') as Hown.
  { intros es. apply touchesOnly_forOwn. intros d0 v k d0'.
    destruct (truthy v);
      [apply touchesOnly_addClass|apply touchesOnly_removeClass]. }
  destruct (rev args) as [|[| |[]| | | |] rest]; try apply Hown.
  - apply touchesOnly_addClass.
  - apply touchesOnly_removeClass.
Qed.

(** X11. Whichever class helper succeeds, it leaves the tree as it
    was: the document objects and every parent pointer are unchanged, and
    so is the class list of every element other than the target. *)
Theorem class_helpers_touch_only_target d element args d' :
  setClass d element args = Ret d' \/ addClass d element args = Ret d'
  \/ removeClass d element args = Ret d' \/ toggleClass d element args = Ret d' ->
  touchesOnly element d d'.
Proof.
  intros [H|[H|[H|H]]].
  - by eapply touchesOnly_setClass.
  - by eapply touchesOnly_addClass.
  - by eapply touchesOnly_removeClass.
  - by eapply touchesOnly_toggleClass.
Qed.

Lemma class_helpers_touch_only_target_witness :
  touchesOnly (Some Samples.div) Samples.pane
    (setElement Samples.pane Samples.div
       (withClassList Samples.scroller ["c"; "pane"; "x"])).
Proof.
  apply (class_helpers_touch_only_target Samples.pane (Some Samples.div)
           [Samples.x_not_y]).
  right. right. right. reflexivity.
Defined.

(** *** [setClass] *)

Lemma parseClass_NoDup s : NoDup (parseClass s).
Proof. apply foldl_addToken_NoDup. constructor. Qed.

Lemma parseClass_nonempty s : "" ∉ parseClass s.
Proof.
  unfold parseClass. rewrite foldl_addToken_elem, list_elem_of_filter.
  intros [H|[H _]]; [by apply elem_of_nil in H|done].
Qed.

(** X12. On an element [setClass] never throws and replaces the class
    list: what it leaves depends on the arguments only, holds no empty
    token and no token twice, and is empty when no argument is truthy
    (where [addClass] throws); the same call on the result changes
    nothing. *)
Theorem setClass_replaces d n e classNames :
  elementOf d n = Some e ->
  exists d' e',
    setClass d (Some n) classNames = Ret d'
    /\ elementOf d' n = Some e'
    /\ classList e' = parseClass (classnames classNames)
    /\ NoDup (classList e') /\ ("" ∉ classList e')
    /\ (Forall (fun v => truthy v = false) classNames -> classList e' = [])
    /\ setClass d' (Some n) classNames = Ret d'.
Proof.
  intros He. unfold setClass. rewrite He.
  eexists _, _. split; [done|].
  split; [by eapply elementOf_setElement|]. simpl.
  split; [done|]. split; [apply parseClass_NoDup|].
  split; [apply parseClass_nonempty|]. split.
  - intros H. by rewrite (falsy_classnames _ H).
  - erewrite elementOf_setElement by done. by rewrite setElement_over.
Qed.

Lemma setClass_replaces_witness :
  exists d' e',
    setClass Samples.pane (Some Samples.div) [VStr "a  b a"] = Ret d'
    /\ elementOf d' Samples.div = Some e'
    /\ classList e' = parseClass (classnames [VStr "a  b a"])
    /\ NoDup (classList e') /\ ("" ∉ classList e')
    /\ (Forall (fun v => truthy v = false) [VStr "a  b a"] -> classList e' = [])
    /\ setClass d' (Some Samples.div) [VStr "a  b a"] = Ret d'.
Proof.
  apply (setClass_replaces Samples.pane Samples.div Samples.scroller
           [VStr "a  b a"]).
  reflexivity.
Defined.

(** *** [toggleClass] with a mapping *)

Lemma removeToken_elem set t x : x ∈ removeToken set t <-> x ∈ set /\ x <> t.
Proof. unfold removeToken. rewrite list_elem_of_filter. tauto. Qed.

Lemma toggled_other props :
  forall cl x, x ∉ props.*1 -> (x ∈ toggled cl props <-> x ∈ cl).
Proof.
  unfold toggled. induction props as [|[k v] rest IH]; intros cl x; simpl; [done|].
  rewrite not_elem_of_cons. intros [Hne Hrest]. rewrite IH by done.
  destruct (truthy v).
  - rewrite addToken_elem. tauto.
  - rewrite removeToken_elem. tauto.
Qed.

Lemma toggled_key props :
  forall cl k v, NoDup props.*1 -> (k, v) ∈ props ->
    (k ∈ toggled cl props <-> truthy v = true).
Proof.
  induction props as [|[k0 v0] rest IH]; intros cl k v Hnd Hin.
  - by apply elem_of_nil in Hin.
  - rewrite fmap_cons in Hnd. apply NoDup_cons in Hnd as [Hk0 Hnd].
    apply elem_of_cons in Hin as [[= -> ->]|Hin].
    + change (toggled cl ((k0, v0) :: rest))
        with (toggled (if truthy v0 then addToken cl k0 else removeToken cl k0) rest).
      rewrite (toggled_other rest _ k0 Hk0). destruct (truthy v0).
      * rewrite addToken_elem. tauto.
      * rewrite removeToken_elem. split; [tauto|discriminate].
    + change (toggled cl ((k0, v0) :: rest))
        with (toggled (if truthy v0 then addToken cl k0 else removeToken cl k0) rest).
      by apply IH.
Qed.

Lemma forOwn_toggle d n props :
  Forall (fun kv => token kv.1 = true) props ->
  forall e, elementOf d n = Some e ->
    forOwn (fun d v k =>
              if truthy v then addClass d (Some n) [VStr k]
              else removeClass d (Some n) [VStr k]) props d
    = Ret (match props with
           | [] => d
           | _ => setElement d n (withClassList e (toggled (classList e) props))
           end).
Proof.
  intros Hprops. revert d.
  induction Hprops as [|[k v] rest Hk _ IH]; intros d e He; [done|].
  simpl in Hk.
  assert (Hv : validate [k] = Ret tt).
  { apply validate_tokens. by repeat constructor. }
  set (cl := if truthy v then addToken (classList e) k
             else removeToken (classList e) k).
  assert (Hstep : (if truthy v then addClass d (Some n) [VStr k]
                   else removeClass d (Some n) [VStr k])
                  = Ret (setElement d n (withClassList e cl))).
  { unfold cl. destruct (truthy v).
    - rewrite (addClass_element d n e), (tokensOf_token k Hk) by done.
      by rewrite Hv.
    - rewrite (removeClass_element d n e), (tokensOf_token k Hk) by done.
      by rewrite Hv. }
  cbn [forOwn]. rewrite Hstep. cbn [bind].
  erewrite IH by (by eapply elementOf_setElement).
  destruct rest as [|kv rest]; [done|].
  by rewrite setElement_over.
Qed.

(** X13. [toggleClass(element, mapping)] on an element, for a mapping
    whose keys are single class names, succeeds; afterwards each key is
    in the class list exactly when its value is truthy, and every class
    that is not a key is there exactly when it was before. *)
Theorem toggleClass_mapping d n e props :
  elementOf d n = Some e ->
  NoDup props.*1 ->
  Forall (fun kv => token kv.1 = true) props ->
  exists d' e',
    toggleClass d (Some n) [VObj props] = Ret d'
    /\ elementOf d' n = Some e'
    /\ (forall k v, (k, v) ∈ props ->
          (k ∈ classList e' <-> truthy v = true))
    /\ (forall x, x ∉ props.*1 -> (x ∈ classList e' <-> x ∈ classList e)).
Proof.
  intros He Hnd Hprops.
  assert (Hrun : toggleClass d (Some n) [VObj props]
                 = Ret (match props with
                        | [] => d
                        | _ => setElement d n
                                 (withClassList e (toggled (classList e) props))
                        end)).
  { unfold toggleClass. cbn -[addClass removeClass forOwn].
    by apply forOwn_toggle. }
  destruct props as [|kv rest].
  - exists d, e. split; [done|]. split; [done|]. split; [|done].
    intros k v H. by apply elem_of_nil in H.
  - eexists _, _. split; [exact Hrun|].
    split; [eapply elementOf_setElement, He|].
    cbn [classList withClassList]. split.
    + intros k v Hin. exact (toggled_key _ _ k v Hnd Hin).
    + intros x Hx. exact (toggled_other _ _ x Hx).
Qed.

Lemma toggleClass_mapping_witness :
  exists d' e',
    toggleClass Samples.pane (Some Samples.div) [Samples.x_not_y] = Ret d'
    /\ elementOf d' Samples.div = Some e'
    /\ (forall k v, (k, v) ∈ [("x", VBool true); ("y", VBool false)] ->
          (k ∈ classList e' <-> truthy v = true))
    /\ (forall x, x ∉ [("x", VBool true); ("y", VBool false)].*1 ->
          (x ∈ classList e' <-> x ∈ classList Samples.scroller)).
Proof.
  apply (toggleClass_mapping Samples.pane Samples.div Samples.scroller
           [("x", VBool true); ("y", VBool false)]).
  - reflexivity.
  - simpl. apply NoDup_cons. split; [|apply NoDup_singleton].
    rewrite list_elem_of_singleton. discriminate.
  - repeat constructor.
Defined.

End ClassMore.

Section RemovalMore.
Import Dom Js Classes Scroll Watcher.

Lemma parentOf_setParent_ne d n m p :
  m <> n -> parentOf (setParent d n p) m = parentOf d m.
Proof.
  intros Hne. unfold parentOf, setParent. simpl. by rewrite lookup_alter_ne.
Qed.

Lemma parentOf_setParent_None d n : parentOf (setParent d n None) n = None.
Proof.
  unfold parentOf, setParent. simpl. rewrite lookup_alter_eq.
  by destruct (nodes d !! n).
Qed.

Lemma elementOf_setParent d n m p :
  elementOf (setParent d n p) m = elementOf d m.
Proof.
  unfold elementOf, setParent. simpl.
  destruct (decide (n = m)) as [->|Hne].
  - rewrite lookup_alter_eq. by destruct (nodes d !! m).
  - by rewrite lookup_alter_ne.
Qed.

(** What [removeFromDOM] leaves, whether the node had a parent or not. *)
Lemma removeFromDOM_result d n :
  exists d',
    removeFromDOM d (Some n) = Ret d'
    /\ body d' = body d
    /\ parentOf d' n = None
    /\ (forall m, m <> n -> parentOf d' m = parentOf d m)
    /\ (forall m, elementOf d' m = elementOf d m).
Proof.
  unfold removeFromDOM. destruct (parentOf d n) as [p|] eqn:Hp.
  - eexists. split; [done|]. split; [done|].
    split; [apply parentOf_setParent_None|].
    split; [intros m Hm; by apply parentOf_setParent_ne|].
    intros m. apply elementOf_setParent.
  - by exists d.
Qed.

(** X14. [removeFromDOM] on a node always succeeds; afterwards the node
    has no parent, every other parent pointer and every class list is as
    before, and the same call again changes nothing. *)
Theorem removeFromDOM_unlinks d n :
  exists d',
    removeFromDOM d (Some n) = Ret d'
    /\ parentOf d' n = None
    /\ (forall m, m <> n -> parentOf d' m = parentOf d m)
    /\ (forall m, classList <$> elementOf d' m = classList <$> elementOf d m)
    /\ removeFromDOM d' (Some n) = Ret d'.
Proof.
  destruct (removeFromDOM_result d n) as (d' & Hrun & _ & Hn & Hpar & Hel).
  exists d'. split; [done|]. split; [done|]. split; [done|].
  split; [intros m; by rewrite Hel|].
  unfold removeFromDOM. by rewrite Hn.
Qed.

Lemma selfOrAbove_cut d d' b n x :
  onWalk d x n -> ~ onWalk d b n ->
  parentOf d' n = None ->
  (forall m, m <> n -> parentOf d' m = parentOf d m) ->
  forall fuel, selfOrAbove fuel d' b (Some x) = false.
Proof.
  intros Hwalk Hb Hn Hpar.
  induction Hwalk as [n|x p n Hp Hwalk IH]; intros fuel.
  - assert (Hne : n <> b) by (intros ->; apply Hb; constructor).
    destruct fuel as [|fuel]; simpl; rewrite bool_decide_eq_false_2 by done;
      [done|].
    rewrite Hn. by destruct fuel.
  - assert (Hne : x <> b) by (intros ->; apply Hb; by eapply onWalk_up).
    destruct fuel as [|fuel]; simpl; rewrite bool_decide_eq_false_2 by done;
      [done|].
    destruct (decide (x = n)) as [->|Hxn].
    + rewrite Hn. by destruct fuel.
    + rewrite (Hpar x Hxn), Hp. by apply IH.
Qed.

(** X15. [removeFromDOM] takes the node and everything below it out of
    the document: when the body lies outside the removed subtree, the
    node and each of its descendants is no longer in the DOM for
    [isElementInDOM]. *)
Theorem removeFromDOM_detaches d b n x d' :
  body d = Some b -> ~ onWalk d b n -> onWalk d x n ->
  removeFromDOM d (Some n) = Ret d' ->
  isElementInDOM d' (Some x) = Ret false.
Proof.
  intros Hbody Hb Hx Hrun.
  destruct (removeFromDOM_result d n) as (d1 & Hrun1 & Hbody1 & Hn & Hpar & _).
  rewrite Hrun in Hrun1. injection Hrun1 as <-.
  unfold isElementInDOM, contains. rewrite Hbody1, Hbody. f_equal.
  by apply (selfOrAbove_cut d d' b n x).
Qed.

Lemma body_outside_div : ~ onWalk Samples.pane Samples.theBody Samples.div.
Proof.
  intros H.
  inversion H as [|? p ? Hp H1]; subst. injection Hp as <-.
  inversion H1 as [|? p ? Hp H2]; subst. injection Hp as <-.
  inversion H2 as [|? p ? Hp _]; subst. discriminate.
Qed.

Lemma para_below_div : onWalk Samples.pane Samples.para Samples.div.
Proof. eapply onWalk_up; [reflexivity|constructor]. Qed.

Lemma removeFromDOM_detaches_witness :
  isElementInDOM (setParent Samples.pane Samples.div None) (Some Samples.para)
  = Ret false.
Proof.
  apply (removeFromDOM_detaches Samples.pane Samples.theBody Samples.div
           Samples.para).
  - reflexivity.
  - exact body_outside_div.
  - exact para_below_div.
  - reflexivity.
Defined.

(** X16. For an element, [inViewport] answers true exactly when the
    element's top, less the offset, is above the window's bottom edge; so
    an element scrolled out above the window counts as visible, and a
    larger offset never turns a true answer into false. *)
Theorem inViewport_above d n e offset :
  elementOf d n = Some e ->
  (inViewport d (Some n) offset = Ret true <->
   rectTop e - offset < innerHeight d)
  /\ (rectTop e <= 0 -> 0 <= offset -> 0 < innerHeight d ->
      inViewport d (Some n) offset = Ret true)
  /\ (forall larger, offset <= larger ->
        inViewport d (Some n) offset = Ret true ->
        inViewport d (Some n) larger = Ret true).
Proof.
  intros He.
  assert (Hiff : forall o, inViewport d (Some n) o = Ret true <->
                           rectTop e - o < innerHeight d).
  { intros o. unfold inViewport, boundingTop. rewrite He. cbn [bind].
    split.
    - intros [= H]. by apply bool_decide_eq_true_1 in H.
    - intros H. by rewrite bool_decide_eq_true_2. }
  split; [apply Hiff|]. split.
  - intros. apply Hiff. lia.
  - intros larger Hle H. apply Hiff. apply Hiff in H. lia.
Qed.

Lemma inViewport_above_witness :
  inViewport Samples.pane (Some Samples.para) 0 = Ret true.
Proof.
  apply (proj2 (proj1 (inViewport_above Samples.pane Samples.para
                         (Samples.plain 100) 0 eq_refl))).
  vm_compute. reflexivity.
Defined.

End RemovalMore.

Section WatcherMore.
Import Dom Js Classes Scroll Watcher.

(** *** While the watched nodes stay in the document *)

Lemma dispatch_attached call copy w :
  Forall (fun l => isElementInDOM (doc w) (watched l) = Ret true) copy ->
  dispatch (onMutation call) copy w = (w, Normal).
Proof.
  induction 1 as [|l rest Hl _ IH]; simpl; [done|].
  unfold onMutation at 1. by rewrite Hl.
Qed.

(** X17. [onRemoveFromDOM] on a node that is in the document adds one
    listener, after those already there, and invokes nothing; and as long
    as every watched node is in the document, any number of mutation
    events leaves the listeners in place and invokes no callback. *)
Theorem onRemoveFromDOM_attached w element cb fuel k :
  isElementInDOM (doc w) element = Ret true ->
  Forall (fun l => isElementInDOM (doc w) (watched l) = Ret true)
         (listeners w) ->
  onRemoveFromDOM w element cb
  = (mkWorld (doc w) (listeners w ++ [mkListener (made w) element cb])
             (calls w) (S (made w)), Normal)
  /\ session fuel (replicate k (Emit Done)) (onRemoveFromDOM w element cb).1
     = (onRemoveFromDOM w element cb).1.
Proof.
  intros Hin Hall.
  assert (Hrun : onRemoveFromDOM w element cb
                 = (mkWorld (doc w) (listeners w ++ [mkListener (made w) element cb])
                            (calls w) (S (made w)), Normal)).
  { unfold onRemoveFromDOM. simpl. by rewrite Hin. }
  split; [done|]. rewrite Hrun. simpl.
  set (w1 := mkWorld _ _ _ _).
  assert (Hemit : (run fuel (Emit Done) w1).1 = w1).
  { unfold run. simpl. destruct fuel as [|fuel]; simpl; [done|].
    rewrite dispatch_attached; [done|].
    simpl. apply Forall_app. split; [done|]. by repeat constructor. }
  unfold session. induction k as [|k IH]; simpl; [done|]. by rewrite Hemit.
Qed.

Lemma onRemoveFromDOM_attached_witness :
  session 2 (replicate 3 (Emit Done))
    (onRemoveFromDOM (start Samples.pane) (Some Samples.para) Raise).1
  = (onRemoveFromDOM (start Samples.pane) (Some Samples.para) Raise).1.
Proof.
  apply (onRemoveFromDOM_attached (start Samples.pane) (Some Samples.para)
           Raise 2 3).
  - reflexivity.
  - constructor.
Defined.

(** *** The record of calls only grows *)

Lemma calls_onRemoveFromDOM w element cb :
  calls (onRemoveFromDOM w element cb).1 = calls w.
Proof.
  unfold onRemoveFromDOM. simpl.
  by destruct (isElementInDOM (doc w) element) as [[|]| |].
Qed.

Lemma calls_exec em :
  (forall w, calls w `prefix_of` calls (em w).1) ->
  forall p w, calls w `prefix_of` calls (exec em p w).1.
Proof.
  intros Hem. induction p as [| |f next IH|next IH|element cb _ next IH];
    simpl; intros w.
  - done.
  - done.
  - apply (IH (mkWorld (f (doc w)) (listeners w) (calls w) (made w))).
  - pose proof (Hem w) as H.
    destruct (em w) as [w' []]; simpl in *; try done. etrans; [exact H|apply IH].
  - pose proof (calls_onRemoveFromDOM w element cb) as H.
    destruct (onRemoveFromDOM w element cb) as [w' []]; simpl in *;
      try by rewrite H.
    rewrite <- H. apply IH.
Qed.

Lemma calls_onMutation em l w :
  (forall w, calls w `prefix_of` calls (em w).1) ->
  calls w `prefix_of` calls (onMutation (exec em) l w).1.
Proof.
  intros Hem. unfold onMutation.
  destruct (isElementInDOM (doc w) (watched l)) as [[|]| |]; simpl; try done.
  etrans; [|apply calls_exec, Hem]. simpl. by apply prefix_app_r.
Qed.

Lemma calls_dispatch em copy :
  (forall w, calls w `prefix_of` calls (em w).1) ->
  forall w, calls w `prefix_of` calls (dispatch (onMutation (exec em)) copy w).1.
Proof.
  intros Hem. induction copy as [|l rest IH]; simpl; intros w; [done|].
  pose proof (calls_onMutation em l w Hem) as H.
  destruct (onMutation (exec em) l w) as [w' []]; simpl in *; try done.
  etrans; [exact H|apply IH].
Qed.

Lemma calls_emit fuel : forall w, calls w `prefix_of` calls (emit fuel w).1.
Proof.
  induction fuel as [|fuel IH]; simpl; intros w; [done|].
  by apply calls_dispatch.
Qed.

Lemma timesCalled_prefix r w w' :
  calls w `prefix_of` calls w' -> (timesCalled r w <= timesCalled r w')%nat.
Proof.
  intros [k Hk]. unfold timesCalled. rewrite Hk, filter_app, length_app. lia.
Qed.

Lemma dispatch_skip_attached call pre rest w :
  Forall (fun l => isElementInDOM (doc w) (watched l) = Ret true) pre ->
  dispatch (onMutation call) (pre ++ rest) w = dispatch (onMutation call) rest w.
Proof.
  induction 1 as [|l pre Hl _ IH]; simpl; [done|].
  unfold onMutation at 1. by rewrite Hl.
Qed.

(** The state in which a callback starts: its listener removed, its call
    on record. *)
Lemma orderly_fired w l :
  orderly w -> l ∈ listeners w ->
  orderly (invoked (lid l) [] (removeListener (lid l) w))
  /\ timesCalled (lid l) (invoked (lid l) [] (removeListener (lid l) w)) = 1%nat.
Proof.
  intros [[Hf1 Hf2] Hn Hq Ho Hg Ha] Hl.
  destruct (dropLast_nodup (lid l) (listeners w) Hn) as [Hn' Hout].
  assert (Hlt : (lid l < made w)%nat).
  { rewrite Forall_forall in Hf1. by apply Hf1. }
  assert (Hzero : timesCalled (lid l) w = 0%nat).
  { apply Hg. by apply list_elem_of_fmap_2. }
  split; [split|].
  - split; simpl; [by apply dropLast_Forall|].
    apply Forall_app. split; [done|]. constructor; [done|constructor].
  - done.
  - by apply dropLast_Forall.
  - intros r. rewrite timesCalled_invoked.
    change (timesCalled r (removeListener (lid l) w)) with (timesCalled r w).
    case_bool_decide as Hr; [|specialize (Ho r); lia].
    subst r. lia.
  - intros r Hr. simpl in Hr. rewrite timesCalled_invoked.
    change (timesCalled r (removeListener (lid l) w)) with (timesCalled r w).
    rewrite Hg by (by eapply dropLast_ids).
    rewrite bool_decide_eq_false_2; [done|]. by intros <-.
  - apply Forall_app. split; [done|]. by repeat constructor.
  - rewrite timesCalled_invoked.
    change (timesCalled (lid l) (removeListener (lid l) w))
      with (timesCalled (lid l) w).
    rewrite Hzero. by rewrite bool_decide_eq_true_2.
Qed.

(** X18. A watcher fires when its node leaves the document and no other
    watcher is due.  In any state [w] the page reaches with its events
    delivered one at a time: after [onRemoveFromDOM(x, cb)], a
    [removeFromDOM] of [x] or of an ancestor of [x] that leaves the body
    and every node watched before in the document, and one mutation
    event, the callback of this registration has been invoked exactly
    once and its listener is gone; a second mutation event does not
    invoke it again.  ([cb] may do anything but emit.) *)
Theorem onRemoveFromDOM_fires_once fuel0 before d w b x n cb fuel :
  Forall (fun p => sequential p = true) before ->
  w = session fuel0 before (start d) ->
  body (doc w) = Some b ->
  isElementInDOM (doc w) (Some x) = Ret true ->
  onWalk (doc w) x n -> ~ onWalk (doc w) b n ->
  Forall (fun l => isElementInDOM (detach n (doc w)) (watched l) = Ret true)
         (listeners w) ->
  quiet cb = true ->
  timesCalled (made w)
    (session (S fuel)
       [Watch (Some x) cb Done; Mutate (detach n) Done; Emit Done] w) = 1%nat
  /\ timesCalled (made w)
       (session (S fuel)
          [Watch (Some x) cb Done; Mutate (detach n) Done; Emit Done; Emit Done]
          w) = 1%nat
  /\ made w ∉ (lid <$> listeners
       (session (S fuel)
          [Watch (Some x) cb Done; Mutate (detach n) Done; Emit Done; Emit Done]
          w)).
Proof.
  intros Hseq Hw Hbody Hin Hx Hb Hothers Hcb.
  assert (Ho : orderly w).
  { rewrite Hw. apply orderly_session; [done|apply orderly_start]. }
  clear Hw Hseq.
  destruct (removeFromDOM_result (doc w) n)
    as (d' & Hrun & Hbody' & Hn & Hpar & _).
  assert (Hd' : detach n (doc w) = d') by (unfold detach; by rewrite Hrun).
  rewrite Hd' in Hothers.
  assert (Hout : isElementInDOM d' (Some x) = Ret false).
  { unfold isElementInDOM, contains. rewrite Hbody', Hbody. f_equal.
    by apply (selfOrAbove_cut (doc w) d' b n x). }
  set (l := mkListener (made w) (Some x) cb).
  set (w1 := mkWorld d' (listeners w ++ [l]) (calls w) (S (made w))).
  assert (Ho1 : orderly w1).
  { apply (orderly_same (on l (mkWorld (doc w) (listeners w) (calls w)
                                  (S (made w))))); try done.
    by apply orderly_on. }
  assert (Hl1 : l ∈ listeners w1).
  { simpl. apply elem_of_app. right. by left. }
  destruct (orderly_fired w1 l Ho1 Hl1) as [Ho2 Hone2].
  set (w2 := invoked (lid l) [] (removeListener (lid l) w1)) in *.
  destruct (grown_exec_quiet (emit fuel) cb Hcb w2 Ho2) as (Ho3 & Hcalls & _).
  set (w3 := (exec (emit fuel) cb w2).1) in *.
  assert (Hthree : session (S fuel)
                     [Watch (Some x) cb Done; Mutate (detach n) Done; Emit Done]
                     w = w3).
  { assert (Hreg : onRemoveFromDOM w (Some x) cb
                   = (mkWorld (doc w) (listeners w ++ [l]) (calls w)
                              (S (made w)), Normal)).
    { unfold onRemoveFromDOM. simpl. by rewrite Hin. }
    assert (Hfire : onMutation (exec (emit fuel)) l w1 = exec (emit fuel) cb w2).
    { unfold onMutation. simpl. by rewrite Hout. }
    unfold session, run. cbn [foldl exec]. rewrite Hreg.
    cbn [fst doc listeners calls made]. rewrite Hd'. fold w1.
    cbn [emit]. change (listeners w1) with (listeners w ++ [l]).
    rewrite dispatch_skip_attached by done.
    cbn [dispatch]. rewrite Hfire. fold w3.
    by destruct (exec (emit fuel) cb w2) as [w' []]. }
  assert (Hone : timesCalled (made w) w3 = 1%nat).
  { unfold timesCalled in *. by rewrite Hcalls. }
  split; [by rewrite Hthree|].
  change (session (S fuel)
            [Watch (Some x) cb Done; Mutate (detach n) Done; Emit Done; Emit Done]
            w)
    with (run (S fuel) (Emit Done)
            (session (S fuel)
               [Watch (Some x) cb Done; Mutate (detach n) Done; Emit Done]
               w)).1.
  rewrite Hthree.
  assert (Ho4 : orderly (run (S fuel) (Emit Done) w3).1)
    by (by apply orderly_exec).
  assert (Hge : (timesCalled (made w) w3
                 <= timesCalled (made w) (run (S fuel) (Emit Done) w3).1)%nat).
  { apply timesCalled_prefix, calls_exec, calls_emit. }
  pose proof (o_once _ Ho4 (made w)) as Hle.
  assert (Hfour : timesCalled (made w) (run (S fuel) (Emit Done) w3).1 = 1%nat)
    by lia.
  split; [done|].
  intros Hlisten. pose proof (o_gone _ Ho4 (made w) Hlisten). lia.
Qed.

Lemma onRemoveFromDOM_fires_once_witness :
  timesCalled 1
    (session 1
       [Watch (Some Samples.para) Raise Done;
        Mutate (detach Samples.div) Done; Emit Done]
       (session 1 [Watch (Some Samples.theBody) Raise Done]
          (start Samples.pane))) = 1%nat.
Proof.
  assert (Hbefore : Forall (fun p => sequential p = true)
                      [Watch (Some Samples.theBody) Raise Done])
    by (by repeat constructor).
  assert (Hothers :
            Forall (fun l => isElementInDOM (detach Samples.div Samples.pane)
                               (watched l) = Ret true)
              [mkListener 0 (Some Samples.theBody) Raise])
    by (by repeat constructor).
  exact (proj1 (onRemoveFromDOM_fires_once 1
                  [Watch (Some Samples.theBody) Raise Done] Samples.pane
                  (session 1 [Watch (Some Samples.theBody) Raise Done]
                     (start Samples.pane))
                  Samples.theBody Samples.para Samples.div Raise 0
                  Hbefore eq_refl eq_refl eq_refl para_below_div
                  body_outside_div Hothers eq_refl)).
Defined.

(** X19. While the document has no body, the containment test throws:
    [isElementInDOM] and [onRemoveFromDOM] end with a [TypeError] and no
    listener is added; a mutation event that finds listeners ends with
    the same error at the first of them, invoking no callback and
    removing no listener. *)
Theorem no_body_throws w element cb fuel :
  body (doc w) = None ->
  isElementInDOM (doc w) element = Throw TypeError
  /\ onRemoveFromDOM w element cb
     = (mkWorld (doc w) (listeners w) (calls w) (S (made w)), Abrupt TypeError)
  /\ (listeners w <> [] -> emit (S fuel) w = (w, Abrupt TypeError)).
Proof.
  intros Hbody.
  assert (Hthrow : forall x, isElementInDOM (doc w) x = Throw TypeError).
  { intros x. unfold isElementInDOM. by rewrite Hbody. }
  split; [apply Hthrow|]. split.
  - unfold onRemoveFromDOM. simpl. by rewrite Hthrow.
  - simpl. destruct (listeners w) as [|l rest]; [done|]. intros _. simpl.
    unfold onMutation. by rewrite Hthrow.
Qed.

Lemma no_body_throws_witness :
  onRemoveFromDOM (start Samples.headOnly) (Some Samples.html) Done
  = (mkWorld Samples.headOnly [] [] 1, Abrupt TypeError).
Proof.
  apply (no_body_throws (start Samples.headOnly) (Some Samples.html) Done 0).
  reflexivity.
Defined.

End WatcherMore.

Section WordFacts.
Import Js Classes.

Lemma splitRuns_cons sep b s : exists p ps, splitRuns sep b s = p :: ps.
Proof.
  revert b. induction s as [|c r IH]; intros b; simpl; [eauto|].
  destruct (sep c).
  - destruct b; eauto.
  - destruct (IH false) as (p & ps & ->). eauto.
Qed.

(** Whether a separator came before does not change the words. *)
Lemma words_inRun s :
  filter (fun t : string => t <> "") (splitRuns isSpace true s) = words s.
Proof.
  unfold words, splitSpaces. destruct s as [|c r]; simpl; [done|].
  destruct (isSpace c); [|done].
  by rewrite filter_cons, decide_False by (intros H; by apply H).
Qed.

Lemma splitRuns_append sp s2 s1 :
  isSpace sp = true ->
  exists p ps ps',
    splitRuns isSpace false s1 = p :: ps
    /\ splitRuns isSpace false (s1 +:+ String sp s2) = p :: ps'
    /\ filter (fun t : string => t <> "") ps' = filter (fun t : string => t <> "") ps ++ words s2.
Proof.
  intros Hsp. induction s1 as [|c r (p & ps & ps' & H1 & H2 & H3)]; simpl.
  - rewrite Hsp. exists "", [], (splitRuns isSpace true s2).
    split; [done|]. split; [done|]. by rewrite words_inRun.
  - destruct (isSpace c) eqn:Hc.
    + exists "", (splitRuns isSpace true r),
             (splitRuns isSpace true (r +:+ String sp s2)).
      split; [done|]. split; [done|].
      rewrite !words_inRun. unfold words, splitSpaces. rewrite H1, H2.
      rewrite !filter_cons. case_decide; simpl; by rewrite H3.
    + rewrite H1, H2. by exists (String c p), ps, ps'.
Qed.

Lemma words_append sp s1 s2 :
  isSpace sp = true -> words (s1 +:+ String sp s2) = words s1 ++ words s2.
Proof.
  intros Hsp.
  destruct (splitRuns_append sp s2 s1 Hsp) as (p & ps & ps' & H1 & H2 & H3).
  unfold words at 1 2, splitSpaces. rewrite H1, H2, !filter_cons.
  case_decide; simpl; by rewrite H3.
Qed.

(** The words of pieces joined by a space are the words of the pieces. *)
Lemma words_concat pieces :
  words (String.concat " " pieces) = flat_map words pieces.
Proof.
  induction pieces as [|x rest IH]; [done|].
  destruct rest as [|y rest].
  - simpl. by rewrite app_nil_r.
  - change (String.concat " " (x :: y :: rest))
      with (x +:+ String (Ascii.ascii_of_nat 32) (String.concat " " (y :: rest))).
    rewrite words_append by done. by rewrite IH.
Qed.

Lemma words_trimStart s : words (trimStart s) = words s.
Proof.
  induction s as [|c r IH]; simpl; [done|].
  destruct (isSpace c) eqn:Hc; [|done].
  rewrite IH. unfold words at 2, splitSpaces. simpl. rewrite Hc.
  rewrite filter_cons, decide_False by (intros H; by apply H).
  by rewrite words_inRun.
Qed.

Lemma splitRuns_trimEnd_parts s :
  exists p ps ps',
    splitRuns isSpace false s = p :: ps
    /\ splitRuns isSpace false (trimEnd s) = p :: ps'
    /\ filter (fun t : string => t <> "") ps' = filter (fun t : string => t <> "") ps.
Proof.
  induction s as [|c r (p & ps & ps' & H1 & H2 & H3)]; simpl.
  - by exists "", [], [].
  - destruct (trimEnd r) as [|c' r'] eqn:Hr.
    + simpl in H2. injection H2 as <- <-. simpl in H3.
      destruct (isSpace c) eqn:Hc.
      * exists "", (splitRuns isSpace true r), []. simpl.
        split; [done|]. split; [done|].
        rewrite words_inRun. unfold words, splitSpaces. rewrite H1.
        rewrite filter_cons, decide_False by (intros H; by apply H). done.
      * rewrite H1. exists (String c ""), ps, []. simpl. rewrite Hc. done.
    + remember (String c' r') as v. cbn [splitRuns].
      destruct (isSpace c) eqn:Hc.
      * exists "", (splitRuns isSpace true r), (splitRuns isSpace true v).
        split; [done|]. split; [done|].
        rewrite !words_inRun. unfold words, splitSpaces. rewrite H1, H2.
        rewrite !filter_cons. case_decide; simpl; by rewrite H3.
      * rewrite H1, H2. by exists (String c p), ps, ps'.
Qed.

Lemma words_trimEnd s : words (trimEnd s) = words s.
Proof.
  destruct (splitRuns_trimEnd_parts s) as (p & ps & ps' & H1 & H2 & H3).
  unfold words, splitSpaces. rewrite H1, H2, !filter_cons.
  case_decide; simpl; by rewrite H3.
Qed.

Lemma words_trim s : words (trim s) = words s.
Proof. unfold trim. by rewrite words_trimEnd, words_trimStart. Qed.

Lemma filter_all {A} (P : A -> Prop) `{Hdec : !forall x, Decision (P x)} l :
  Forall P l -> filter P l = l.
Proof.
  induction 1 as [|x l Hx _ IH]; [done|].
  by rewrite filter_cons, decide_True, IH.
Qed.

(** What reaches the class list, when the composition is not blank: the
    words of the composition. *)
Lemma splitSpaces_trim_words s : trim s <> "" -> splitSpaces (trim s) = words s.
Proof.
  intros Hne. rewrite <- words_trim. unfold words. symmetry.
  apply filter_all. pose proof (splitSpaces_trim s Hne) as H.
  eapply Forall_impl; [exact H|]. simpl. intros t Ht ->. discriminate.
Qed.

Lemma blank_words s : trim s = "" <-> words s = [].
Proof.
  split.
  - intros H. by rewrite <- words_trim, H.
  - intros H. destruct (decide (trim s = "")) as [|Hne]; [done|].
    rewrite <- (splitSpaces_trim_words s Hne) in H.
    unfold splitSpaces in H.
    destruct (splitRuns_cons isSpace false (trim s)) as (p & ps & Hp).
    by rewrite Hp in H.
Qed.

(** The tokens of a non-blank argument list, argument by argument. *)
Lemma tokensOf_words args :
  trim (classnames args) <> "" ->
  tokensOf args = flat_map words (flat_map classesOf args).
Proof.
  intros Hne. unfold tokensOf. rewrite splitSpaces_trim_words by done.
  apply words_concat.
Qed.

Lemma blank_flat args :
  trim (classnames args) = "" <-> flat_map words (flat_map classesOf args) = [].
Proof. unfold classnames. by rewrite blank_words, words_concat. Qed.

End WordFacts.

Section ComposeMore.
Import Dom Js Classes.


Lemma tokensOf_app args1 args2 :
  trim (classnames args1) <> "" -> trim (classnames args2) <> "" ->
  trim (classnames (args1 ++ args2)) <> ""
  /\ tokensOf (args1 ++ args2) = tokensOf args1 ++ tokensOf args2.
Proof.
  intros H1 H2.
  assert (H12 : trim (classnames (args1 ++ args2)) <> "").
  { rewrite blank_flat, !flat_map_app. intros H.
    apply app_eq_nil in H as [H _]. by apply blank_flat in H. }
  split; [done|].
  by rewrite !tokensOf_words, !flat_map_app by done.
Qed.

(** X20. Class names may be given in one call or in two: when neither
    part of the argument list is blank, [addClass] (and [removeClass])
    with both parts ends as the call with the first part followed by the
    call with the second, for every target. *)
Theorem addClass_in_two_calls d element args1 args2 :
  trim (classnames args1) <> "" -> trim (classnames args2) <> "" ->
  addClass d element (args1 ++ args2)
  = (let* d1 := addClass d element args1 in addClass d1 element args2)
  /\ removeClass d element (args1 ++ args2)
     = (let* d1 := removeClass d element args1 in removeClass d1 element args2).
Proof.
  intros H1 H2. destruct (tokensOf_app args1 args2 H1 H2) as [H12 Htok].
  pose proof (splitSpaces_trim _ H1) as Ht1.
  pose proof (splitSpaces_trim _ H2) as Ht2.
  fold (tokensOf args1) in Ht1. fold (tokensOf args2) in Ht2.
  assert (Hv1 := validate_tokens _ Ht1). assert (Hv2 := validate_tokens _ Ht2).
  assert (Hv : validate (tokensOf args1 ++ tokensOf args2) = Ret tt).
  { apply validate_tokens, Forall_app. by split. }
  destruct element as [n|]; [|done].
  destruct (elementOf d n) as [e|] eqn:He.
  - rewrite !(addClass_element d n e), !(removeClass_element d n e) by done.
    rewrite Htok, Hv, Hv1. cbn [bind].
    erewrite addClass_element by (by eapply elementOf_setElement).
    erewrite removeClass_element by (by eapply elementOf_setElement).
    rewrite Hv2. cbn [bind]. simpl.
    by rewrite !setElement_over, !foldl_app.
  - unfold addClass, removeClass. by rewrite He.
Qed.

Lemma addClass_in_two_calls_witness :
  addClass Samples.pane (Some Samples.div) ([VStr "a b"] ++ [VStr "c"])
  = (let* d1 := addClass Samples.pane (Some Samples.div) [VStr "a b"] in
     addClass d1 (Some Samples.div) [VStr "c"]).
Proof.
  apply (addClass_in_two_calls Samples.pane (Some Samples.div)
           [VStr "a b"] [VStr "c"]).
  - vm_compute. discriminate.
  - vm_compute. discriminate.
Defined.







End ComposeMore.
